(** * Critter Castle: the structural analysis engine

    A shallow embedding of [designer/js/structuralAnalysis.js] (the object
    [StructuralAnalysis]) and the properties of its weight estimator,
    support-graph builder, load propagation and cat-weight tester.

    Numbers.  JavaScript numbers are modelled as exact rationals [Q]; the
    constants of the source ([0.025], [0.75], [Math.PI], ...) are the rationals
    their literals denote, and equality of numbers is [Qeq] ([==]).  Two
    non-finite values can arise from finite pieces.  [Math.max()] of no
    arguments is [-Infinity]; it is modelled explicitly (see
    [Math_max_spread]).  A division by a zero capacity gives an infinity or
    NaN in the source and [0] in [Q]; it needs a piece with a zero footprint,
    and the statements on stress levels are about positive footprints.

    Rounding.  The source computes in binary64, so each of its sums,
    differences, products and quotients is the exact result rounded to 53
    significant bits ([Binary64.rnd64]).  The engine is modelled in exact
    arithmetic; the statements below are of three kinds: comparisons and
    orderings that rounding preserves, statements about values the code has
    already computed (weights, loads), and statements on the thresholds of
    the support test, which carry the hypothesis that the coordinates lie on
    a dyadic grid ([onGrid]), where the binary64 test [isSupporting64] is
    proved to be the exact one.  [weight64_samples] shows two pieces whose
    binary64 weight differs from the exact one.

    Keys.  A property read on a plain object also finds the members
    inherited from [Object.prototype], and integer-like keys are enumerated
    first; [JS.get] and [JS.keys] follow own, non-integer keys only.  The
    statements that depend on a missing key or on the key order exclude the
    other keys by hypothesis ([JS.inherited], [JS.isArrayIndex]). *)

From Stdlib Require Import QArith Qround Qabs Qminmax Qpower.
From Stdlib Require Import ZArith Ascii String List Bool Lia Lqa.
Import ListNotations.

Open Scope Q_scope.

(** ** The JavaScript primitives the source relies on *)

Module JS.

(** [a < b] and [a > b] on numbers. *)
Definition ltb (a b : Q) : bool := negb (Qle_bool b a).
Definition gtb (a b : Q) : bool := ltb b a.
(** [a >= b]. *)
Definition geb (a b : Q) : bool := Qle_bool b a.

(** [Math.round]: the nearest integer, halves going up. *)
Definition Math_round (x : Q) : Q := inject_Z (Qfloor (x + 0.5)).

(** [Math.PI] is the double nearest to pi, 884279719003555 / 2^48. *)
Definition Math_PI : Q := 884279719003555 # 281474976710656.

Definition Math_pow2 (x : Q) : Q := x * x.

(** [x || 0] on a number: [0] when [x] is falsy. *)
Definition or_zero (x : Q) : Q := if Qeq_bool x 0 then 0 else x.

(** [Math.max(...xs)]: [None] stands for the [-Infinity] of an empty
    spread. *)
Fixpoint Math_max_spread (xs : list Q) : option Q :=
  match xs with
  | [] => None
  | x :: rest =>
      match Math_max_spread rest with
      | None => Some x
      | Some m => Some (Qmax x m)
      end
  end.

(** [hay.includes(needle)]. *)
Fixpoint includes (hay needle : string) : bool :=
  prefix needle hay ||
  match hay with
  | EmptyString => false
  | String _ rest => includes rest needle
  end.

(** [Set.prototype.has] on a set of ids kept as a list. *)
Definition has (s : list string) (k : string) : bool :=
  existsb (String.eqb k) s.

(** The property names every plain object inherits from
    [Object.prototype]: reading such a key on an object that does not own
    it yields the inherited member and not [undefined]. *)
Definition inheritedKeys : list string :=
  ["constructor"; "hasOwnProperty"; "isPrototypeOf"; "propertyIsEnumerable";
   "toLocaleString"; "toString"; "valueOf"; "__proto__";
   "__defineGetter__"; "__defineSetter__";
   "__lookupGetter__"; "__lookupSetter__"]%string.

Definition inherited (k : string) : bool := has inheritedKeys k.

(** An array index: the canonical decimal numeral of an integer below
    2^32 - 1.  Such keys are enumerated before all others, in numeric
    order. *)
Definition isDigit (c : Ascii.ascii) : bool :=
  (48 <=? Ascii.nat_of_ascii c)%nat && (Ascii.nat_of_ascii c <=? 57)%nat.

Fixpoint allDigits (s : string) : bool :=
  match s with
  | EmptyString => true
  | String c rest => isDigit c && allDigits rest
  end.

Fixpoint numeral (s : string) (acc : Z) : Z :=
  match s with
  | EmptyString => acc
  | String c rest =>
      numeral rest (10 * acc + Z.of_nat (Ascii.nat_of_ascii c) - 48)%Z
  end.

Definition isArrayIndex (k : string) : bool :=
  match k with
  | EmptyString => false
  | String c rest =>
      allDigits k &&
      (negb (Ascii.eqb c "0"%char) || String.eqb rest EmptyString) &&
      (numeral k 0 <? 4294967295)%Z
  end.

(** A key that behaves as an own, insertion-ordered key. *)
Definition plainKey (k : string) : bool :=
  negb (inherited k) && negb (isArrayIndex k).

(** A plain object used as a map from string keys.  Keys that are not
    array indices are enumerated in insertion order, and assigning to an
    existing key keeps its place; piece ids have the shape
    [variantId-timestamp], so they are never array indices. *)
Section Obj.
Context {V : Type}.

Definition obj := list (string * V).

Fixpoint get (o : obj) (k : string) : option V :=
  match o with
  | [] => None
  | (k', v) :: rest => if String.eqb k k' then Some v else get rest k
  end.

Fixpoint set (o : obj) (k : string) (v : V) : obj :=
  match o with
  | [] => [(k, v)]
  | (k', v') :: rest =>
      if String.eqb k k' then (k', v) :: rest else (k', v') :: set rest k v
  end.

Definition values (o : obj) : list V := map snd o.
Definition keys (o : obj) : list string := map fst o.
End Obj.
Arguments obj V : clear implicits.

(** What running a piece of code comes to: a value, a thrown [TypeError]
    (a property read on [undefined]), or the loop budget of the model
    running out. *)
Inductive outcome (A : Type) : Type :=
| Done (a : A)
| Throws
| OutOfFuel.
Arguments Done {A} a.
Arguments Throws {A}.
Arguments OutOfFuel {A}.

Definition bind {A B} (c : outcome A) (k : A -> outcome B) : outcome B :=
  match c with
  | Done a => k a
  | Throws => Throws
  | OutOfFuel => OutOfFuel
  end.

(** [o[k]] followed by a property read: throws when [o[k]] is
    [undefined]. *)
Definition deref {V} (o : obj V) (k : string) : outcome V :=
  match get o k with
  | Some v => Done v
  | None => Throws
  end.

End JS.

Notation "x <- c ;; k" := (JS.bind c (fun x => k))
  (at level 61, c at next level, right associativity).

(** ** Data model *)

Record MaterialProfile := {
  baseCapacity : Q;
  tensileStrength : Q;
  shearStrength : Q;
  density : Q;
  jointEfficiency : Q
}.

Record Piece := {
  id : string;
  name : string;
  variantId : option string;
  width : Q;
  height : Q;
  depth : Q;
  x : Q;
  y : Q;
  z : Q;
  hollow : bool;
  shape : string;
  material : string
}.

Inductive ConnectionType :=
| none
| screws
| brackets_light
| brackets_heavy
| bolts
| glue_and_screws
| metal_plate.

Record Connection := {
  conn_x : Q;
  conn_y : Q;
  conn_z : Q;
  area : Q;
  upperPieceId : string;
  lowerPieceId : string;
  suggestedConnection : ConnectionType
}.

Record Node := {
  piece : Piece;
  supporting : list string;
  supportedBy : list string;
  connections : list Connection;
  totalLoad : Q;
  stressLevel : Q
}.

Definition SupportMap := JS.obj Node.

(** ** Material table *)

Definition wood : MaterialProfile :=
  {| baseCapacity := 150; tensileStrength := 100; shearStrength := 80;
     density := 0.025; jointEfficiency := 0.9 |}.
Definition fabric : MaterialProfile :=
  {| baseCapacity := 30; tensileStrength := 20; shearStrength := 10;
     density := 0.005; jointEfficiency := 0.3 |}.
Definition sisal : MaterialProfile :=
  {| baseCapacity := 60; tensileStrength := 50; shearStrength := 30;
     density := 0.015; jointEfficiency := 0.5 |}.
Definition carpet : MaterialProfile :=
  {| baseCapacity := 40; tensileStrength := 25; shearStrength := 15;
     density := 0.008; jointEfficiency := 0.4 |}.
Definition cushion : MaterialProfile :=
  {| baseCapacity := 20; tensileStrength := 10; shearStrength := 5;
     density := 0.003; jointEfficiency := 0.2 |}.

Definition materialStrength : JS.obj MaterialProfile :=
  [("wood", wood); ("fabric", fabric); ("sisal", sisal);
   ("carpet", carpet); ("cushion", cushion)]%string.

(** [materialStrength[m] || materialStrength.wood]. *)
Definition materialOf (m : string) : MaterialProfile :=
  match JS.get materialStrength m with
  | Some p => p
  | None => wood
  end.

(** ** Weight *)

Definition wallThickness : Q := 0.75.

Definition outerVolume (p : Piece) : Q := width p * height p * depth p.

Definition innerVolume (p : Piece) : Q :=
  Qmax 0 ((width p - 2 * wallThickness) *
          (height p - 2 * wallThickness) *
          (depth p - 2 * wallThickness)).

(** The [volume] local of [calculatePieceWeight]. *)
Definition pieceVolume (p : Piece) : Q :=
  if hollow p then outerVolume p - innerVolume p
  else if String.eqb (shape p) "cylinder"
       then JS.Math_PI * JS.Math_pow2 (width p / 2) * height p
       else width p * height p * depth p.

Definition calculatePieceWeight (p : Piece) : Q :=
  JS.Math_round (pieceVolume p * density (materialOf (material p)) * 10) / 10.

Definition calculateTotalWeight (pieces : list Piece) : Q :=
  fold_left (fun total p => total + calculatePieceWeight p) pieces 0.

(** ** Support graph *)

Definition calculateOverlap (min1 max1 min2 max2 : Q) : Q :=
  Qmax 0 (Qmin max1 max2 - Qmax min1 min2).

Definition overlapX (lowerPiece upperPiece : Piece) : Q :=
  calculateOverlap
    (x lowerPiece - width lowerPiece / 2)
    (x lowerPiece + width lowerPiece / 2)
    (x upperPiece - width upperPiece / 2)
    (x upperPiece + width upperPiece / 2).

Definition overlapZ (lowerPiece upperPiece : Piece) : Q :=
  calculateOverlap
    (z lowerPiece - depth lowerPiece / 2)
    (z lowerPiece + depth lowerPiece / 2)
    (z upperPiece - depth upperPiece / 2)
    (z upperPiece + depth upperPiece / 2).

Definition isSupporting (lowerPiece upperPiece : Piece) : bool :=
  let lowerTop := y lowerPiece + height lowerPiece in
  let upperBottom := y upperPiece in
  if JS.gtb (Qabs (lowerTop - upperBottom)) 1 then false
  else JS.geb (overlapX lowerPiece upperPiece) 2 &&
       JS.geb (overlapZ lowerPiece upperPiece) 2.

Definition suggestConnection (overlapArea : Q) (upperPiece : Piece)
  : ConnectionType :=
  let weight := calculatePieceWeight upperPiece in
  if JS.ltb overlapArea 4 then
    if JS.gtb weight 20 then metal_plate else brackets_heavy
  else if JS.ltb overlapArea 16 then
    if JS.gtb weight 15 then brackets_heavy else brackets_light
  else
    if JS.gtb weight 10 then glue_and_screws else screws.

Definition calculateConnectionPoint (lowerPiece upperPiece : Piece)
  : Connection :=
  let overlapCenterX :=
    (Qmax (x lowerPiece - width lowerPiece / 2)
          (x upperPiece - width upperPiece / 2) +
     Qmin (x lowerPiece + width lowerPiece / 2)
          (x upperPiece + width upperPiece / 2)) / 2 in
  let overlapCenterZ :=
    (Qmax (z lowerPiece - depth lowerPiece / 2)
          (z upperPiece - depth upperPiece / 2) +
     Qmin (z lowerPiece + depth lowerPiece / 2)
          (z upperPiece + depth upperPiece / 2)) / 2 in
  let overlapArea := overlapX lowerPiece upperPiece *
                     overlapZ lowerPiece upperPiece in
  {| conn_x := overlapCenterX;
     conn_y := y lowerPiece + height lowerPiece;
     conn_z := overlapCenterZ;
     area := overlapArea;
     upperPieceId := id upperPiece;
     lowerPieceId := id lowerPiece;
     suggestedConnection := suggestConnection overlapArea upperPiece |}.

(** In-place updates of a node's fields. *)
Definition push_supporting (n : Node) (k : string) : Node :=
  {| piece := piece n; supporting := supporting n ++ [k];
     supportedBy := supportedBy n; connections := connections n;
     totalLoad := totalLoad n; stressLevel := stressLevel n |}.

Definition push_supportedBy (n : Node) (k : string) : Node :=
  {| piece := piece n; supporting := supporting n;
     supportedBy := supportedBy n ++ [k]; connections := connections n;
     totalLoad := totalLoad n; stressLevel := stressLevel n |}.

Definition push_connection (n : Node) (c : Connection) : Node :=
  {| piece := piece n; supporting := supporting n;
     supportedBy := supportedBy n; connections := connections n ++ [c];
     totalLoad := totalLoad n; stressLevel := stressLevel n |}.

Definition set_load (n : Node) (load stress : Q) : Node :=
  {| piece := piece n; supporting := supporting n;
     supportedBy := supportedBy n; connections := connections n;
     totalLoad := load; stressLevel := stress |}.

Definition freshNode (p : Piece) : Node :=
  {| piece := p; supporting := []; supportedBy := []; connections := [];
     totalLoad := 0; stressLevel := 0 |}.

(** The first [forEach] of [analyzeSupportStructure]. *)
Definition initSupportMap (pieces : list Piece) : SupportMap :=
  fold_left (fun m p => JS.set m (id p) (freshNode p)) pieces [].

(** The body of the inner [forEach], for one (upper, lower) pair. *)
Definition visitPair (upperPiece : Piece) (m : SupportMap) (lowerPiece : Piece)
  : JS.outcome SupportMap :=
  if String.eqb (id upperPiece) (id lowerPiece) then JS.Done m
  else if isSupporting lowerPiece upperPiece then
    l <- JS.deref m (id lowerPiece) ;;
    let m1 := JS.set m (id lowerPiece) (push_supporting l (id upperPiece)) in
    u <- JS.deref m1 (id upperPiece) ;;
    let m2 := JS.set m1 (id upperPiece) (push_supportedBy u (id lowerPiece)) in
    let connection := calculateConnectionPoint lowerPiece upperPiece in
    l' <- JS.deref m2 (id lowerPiece) ;;
    JS.Done (JS.set m2 (id lowerPiece) (push_connection l' connection))
  else JS.Done m.

(** [xs.forEach] threading the map through a body that may throw. *)
Fixpoint forEachM {A S} (body : S -> A -> JS.outcome S) (xs : list A) (s : S)
  : JS.outcome S :=
  match xs with
  | [] => JS.Done s
  | a :: rest => s' <- body s a ;; forEachM body rest s'
  end.

Definition findSupports (pieces : list Piece) (m : SupportMap)
  : JS.outcome SupportMap :=
  forEachM (fun m upperPiece => forEachM (visitPair upperPiece) pieces m)
           pieces m.

(** ** The support test in binary64 *)

Module Binary64.

(** Round to the nearest integer, ties to the even one. *)
Definition RNE (q : Q) : Z :=
  let f := Qfloor q in
  match Qcompare (q - inject_Z f) (1 # 2) with
  | Lt => f
  | Gt => (f + 1)%Z
  | Eq => if Z.even f then f else (f + 1)%Z
  end.

(** The exponent [e] with [2^e <= |q| < 2^(e+1)], for [q] other than 0. *)
Definition ilog2 (q : Q) : Z :=
  let e := (Z.log2 (Z.abs (Qnum q)) - Z.log2 (Z.pos (Qden q)))%Z in
  if Qle_bool (2 ^ e) (Qabs q) then e else (e - 1)%Z.

(** The nearest number with a 53-bit significand, ties to even: the
    rounding of every binary64 operation (the exponent range is not
    modelled; the numbers of the engine are far inside it). *)
Definition rnd64 (q : Q) : Q :=
  let r := Qred q in
  if Qeq_bool r 0 then 0
  else let u := 2 ^ (ilog2 r - 52) in inject_Z (RNE (r / u)) * u.

(** [a + b], [a - b], [a * b] and [a / b] on binary64 numbers. *)
Definition add64 (a b : Q) : Q := rnd64 (a + b).
Definition sub64 (a b : Q) : Q := rnd64 (a - b).
Definition mul64 (a b : Q) : Q := rnd64 (a * b).
Definition div64 (a b : Q) : Q := rnd64 (a / b).

End Binary64.

(** [calculateOverlap] and [isSupporting] with the rounding of each
    operation ([Math.max], [Math.min] and [Math.abs] are exact), for pieces
    whose coordinates and sizes are binary64 numbers. *)
Definition calculateOverlap64 (min1 max1 min2 max2 : Q) : Q :=
  Qmax 0 (Binary64.sub64 (Qmin max1 max2) (Qmax min1 min2)).

Definition isSupporting64 (lowerPiece upperPiece : Piece) : bool :=
  let lowerTop := Binary64.add64 (y lowerPiece) (height lowerPiece) in
  let upperBottom := y upperPiece in
  if JS.gtb (Qabs (Binary64.sub64 lowerTop upperBottom)) 1 then false
  else
    let overlapX := calculateOverlap64
      (Binary64.sub64 (x lowerPiece) (Binary64.div64 (width lowerPiece) 2))
      (Binary64.add64 (x lowerPiece) (Binary64.div64 (width lowerPiece) 2))
      (Binary64.sub64 (x upperPiece) (Binary64.div64 (width upperPiece) 2))
      (Binary64.add64 (x upperPiece) (Binary64.div64 (width upperPiece) 2)) in
    let overlapZ := calculateOverlap64
      (Binary64.sub64 (z lowerPiece) (Binary64.div64 (depth lowerPiece) 2))
      (Binary64.add64 (z lowerPiece) (Binary64.div64 (depth lowerPiece) 2))
      (Binary64.sub64 (z upperPiece) (Binary64.div64 (depth upperPiece) 2))
      (Binary64.add64 (z upperPiece) (Binary64.div64 (depth upperPiece) 2)) in
    JS.geb overlapX 2 && JS.geb overlapZ 2.

(** [calculatePieceWeight] with the rounding of each operation; the
    density literal is read as the nearest binary64 number, [Math.round]
    is exact and [Math.pow(v, 2)] is the rounded square. *)
Definition calculatePieceWeight64 (p : Piece) : Q :=
  let rho := Binary64.rnd64 (density (materialOf (material p))) in
  let volume :=
    if hollow p then
      let wall2 := Binary64.mul64 2 wallThickness in
      let outer :=
        Binary64.mul64 (Binary64.mul64 (width p) (height p)) (depth p) in
      let inner :=
        Qmax 0 (Binary64.mul64
                  (Binary64.mul64 (Binary64.sub64 (width p) wall2)
                                  (Binary64.sub64 (height p) wall2))
                  (Binary64.sub64 (depth p) wall2)) in
      Binary64.sub64 outer inner
    else if String.eqb (shape p) "cylinder"
         then Binary64.mul64
                (Binary64.mul64 JS.Math_PI
                   (Binary64.mul64 (Binary64.div64 (width p) 2)
                                   (Binary64.div64 (width p) 2)))
                (height p)
         else Binary64.mul64 (Binary64.mul64 (width p) (height p)) (depth p)
  in
  Binary64.div64
    (JS.Math_round (Binary64.mul64 (Binary64.mul64 volume rho) 10)) 10.

(** A multiple of 2^-20 of magnitude at most 2^30.  On such numbers the
    sums, differences and halves of the support test need at most 53
    significant bits, so binary64 computes them exactly. *)
Definition dyadic (q : Q) : bool :=
  let r := Qred q in
  let d := Z.pos (Qden r) in
  (d =? 2 ^ Z.log2 d)%Z && (Z.log2 d <=? 20)%Z &&
  (Z.abs (Qnum r) <=? 2 ^ 30 * d)%Z.

Definition onGrid (p : Piece) : bool :=
  dyadic (x p) && dyadic (y p) && dyadic (z p) &&
  dyadic (width p) && dyadic (height p) && dyadic (depth p).

(** ** Load distribution *)

(** The [reduce] over [node.supporting]. *)
Definition supportedWeight (m : SupportMap) (ids : list string)
  : JS.outcome Q :=
  forEachM (fun total supportedId =>
              n <- JS.deref m supportedId ;;
              JS.Done (total + JS.or_zero (totalLoad n)))
           ids 0.

Definition maxCapacity (p : Piece) : Q :=
  baseCapacity (materialOf (material p)) * (width p * depth p).

(** The [while] loop over the processing queue; [fuel] bounds the number of
    iterations. *)
Fixpoint processQueue (fuel : nat) (processingQueue processed : list string)
  (m : SupportMap) : JS.outcome SupportMap :=
  match processingQueue with
  | [] => JS.Done m
  | pieceId :: rest =>
      match fuel with
      | O => JS.OutOfFuel
      | S fuel' =>
          if JS.has processed pieceId then processQueue fuel' rest processed m
          else
            node <- JS.deref m pieceId ;;
            let pieceWeight := calculatePieceWeight (piece node) in
            sw <- supportedWeight m (supporting node) ;;
            let load := pieceWeight + sw in
            let stress := Qmin 1 (load / maxCapacity (piece node)) in
            let m' := JS.set m pieceId (set_load node load stress) in
            let processed' := pieceId :: processed in
            let pushed :=
              filter (fun supportId => negb (JS.has processed' supportId))
                     (supportedBy node) in
            processQueue fuel' (rest ++ pushed) processed' m'
      end
  end.

(** The top-level pieces that seed the queue. *)
Definition topLevel (m : SupportMap) : list string :=
  map (fun node => id (piece node))
      (filter (fun node => (length (supporting node) =? 0)%nat) (JS.values m)).

(** Supported-by entries still to be enqueued: those of the nodes whose key
    is not processed yet. *)
Fixpoint pending (processed : list string) (m : SupportMap) : nat :=
  match m with
  | [] => 0
  | (k, n) :: rest =>
      ((if JS.has processed k then 0 else length (supportedBy n)) +
       pending processed rest)%nat
  end.

(** A number of iterations the loop cannot exceed. *)
Definition queueBudget (m : SupportMap) : nat :=
  S (length (topLevel m) + pending [] m).

(** [pieces] is not read by the source function. *)
Definition calculateLoadDistribution (m : SupportMap) (pieces : list Piece)
  : JS.outcome SupportMap :=
  processQueue (queueBudget m) (topLevel m) [] m.

Definition analyzeSupportStructure (pieces : list Piece)
  : JS.outcome SupportMap :=
  m <- findSupports pieces (initSupportMap pieces) ;;
  calculateLoadDistribution m pieces.

(** ** Cat weight testing *)

(** The message templates, by the number they interpolate ([None] is the
    [-Infinity] of an empty weight list). *)
Inductive Issue :=
| CannotSafelySupport (maxSingleCat : option Q).

Inductive Suggestion :=
| CriticalAddReinforcement
| WarningAddBrackets
| DesignCannotSupport (maxSingleCat : option Q).

Record CatSpot := {
  spot_name : string;
  currentLoad : Q;
  capacity : Q;
  canHoldCat : bool;
  maxCatWeight : Q
}.

Record WeakPoint := {
  wp_pieceId : string;
  wp_pieceName : string;
  issue : Issue;
  currentCapacity : Q;
  required : option Q
}.

Record Recommendation := {
  rec_pieceId : option string;
  rec_pieceName : string;
  stress : Q;
  suggestion : Suggestion
}.

Record Results := {
  passed : bool;
  totalCapacity : Q;
  weakPoints : list WeakPoint;
  recommendations : list Recommendation;
  safetyFactor : Q;
  catDistribution : JS.obj CatSpot
}.

(** [a + maxSingleCat < b] and [a + maxSingleCat > b], where the cat weight
    may be [-Infinity]. *)
Definition withCat_ltb (a : Q) (maxSingleCat : option Q) (b : Q) : bool :=
  match maxSingleCat with
  | Some c => JS.ltb (a + c) b
  | None => true
  end.

Definition withCat_gtb (a : Q) (maxSingleCat : option Q) (b : Q) : bool :=
  match maxSingleCat with
  | Some c => JS.gtb (a + c) b
  | None => false
  end.

Definition variantIncludes (p : Piece) (needle : string) : bool :=
  match variantId p with
  | Some v => JS.includes v needle
  | None => false
  end.

Definition isRestingSpot (p : Piece) : bool :=
  variantIncludes p "platform" || variantIncludes p "perch" ||
  variantIncludes p "house".

(** The body of [restingSpots.forEach]. *)
Definition testSpot (supportMap : SupportMap) (maxSingleCat : option Q)
  (results : Results) (spot : Piece) : JS.outcome Results :=
  node <- JS.deref supportMap (id spot) ;;
  let contactArea := width spot * depth spot in
  let spotCapacity := baseCapacity (materialOf (material spot)) * contactArea in
  let sf := safetyFactor results in
  let entry :=
    {| spot_name := name spot;
       currentLoad := totalLoad node;
       capacity := spotCapacity;
       canHoldCat := withCat_ltb (totalLoad node) maxSingleCat (spotCapacity / sf);
       maxCatWeight := Qmax 0 (spotCapacity / sf - totalLoad node) |} in
  let failed := withCat_gtb (totalLoad node) maxSingleCat (spotCapacity / sf) in
  JS.Done
    {| passed := if failed then false else passed results;
       totalCapacity := totalCapacity results + spotCapacity;
       weakPoints :=
         if failed then
           weakPoints results ++
           [{| wp_pieceId := id spot;
               wp_pieceName := name spot;
               issue := CannotSafelySupport maxSingleCat;
               currentCapacity :=
                 JS.Math_round (spotCapacity / sf - totalLoad node);
               required := maxSingleCat |}]
         else weakPoints results;
       recommendations := recommendations results;
       safetyFactor := sf;
       catDistribution := JS.set (catDistribution results) (id spot) entry |}.

(** The stress scan over every node of the map. *)
Definition stressRecommendations (supportMap : SupportMap)
  : list Recommendation :=
  map (fun node =>
         {| rec_pieceId := Some (id (piece node));
            rec_pieceName := name (piece node);
            stress := JS.Math_round (stressLevel node * 100);
            suggestion := if JS.gtb (stressLevel node) 0.75
                          then CriticalAddReinforcement
                          else WarningAddBrackets |})
      (filter (fun node => JS.gtb (stressLevel node) 0.5)
              (JS.values supportMap)).

Definition testCatWeights (pieces : list Piece) (catWeights : list Q)
  (supportMap : SupportMap) : JS.outcome Results :=
  let maxSingleCat := JS.Math_max_spread catWeights in
  let results :=
    {| passed := true; totalCapacity := 0; weakPoints := [];
       recommendations := []; safetyFactor := 2;
       catDistribution := [] |} in
  let restingSpots := filter isRestingSpot pieces in
  results <- forEachM (testSpot supportMap maxSingleCat) restingSpots results ;;
  let recs := recommendations results ++ stressRecommendations supportMap in
  JS.Done
    {| passed := passed results;
       totalCapacity := totalCapacity results;
       weakPoints := weakPoints results;
       recommendations :=
         if passed results then recs
         else {| rec_pieceId := None;
                 rec_pieceName := "Overall Design";
                 stress := 100;
                 suggestion := DesignCannotSupport maxSingleCat |} :: recs;
       safetyFactor := safetyFactor results;
       catDistribution := catDistribution results |}.

(** ** Sample designs *)

Definition box (i v : string) (w h d py : Q) (mat : string) : Piece :=
  {| id := i; name := i; variantId := Some v;
     width := w; height := h; depth := d; x := 0; y := py; z := 0;
     hollow := false; shape := "box"; material := mat |}.

Definition shell (i v sh : string) (w h d py : Q) (mat : string) : Piece :=
  {| id := i; name := i; variantId := Some v;
     width := w; height := h; depth := d; x := 0; y := py; z := 0;
     hollow := true; shape := sh; material := mat |}.

(** A post, a one-inch shelf resting on it, and a box resting on the shelf
    whose bottom is also within the one-inch tolerance of the post's top. *)
Definition post : Piece := box "post-1" "post-basic" 12 10 12 0 "wood".
Definition shelf : Piece := box "shelf-2" "platform-square" 12 1 12 10 "wood".
Definition crate : Piece := box "crate-3" "bed-box" 12 5 12 11 "wood".
Definition tower : list Piece := [post; shelf; crate].

(** The fabric perch of the boundary case of the cat test. *)
Definition perch : Piece := box "perch-1" "perch-round" 1 1 1 0 "fabric".

(** A small cushion platform under a heavy wooden block. *)
Definition pad : Piece := box "platform-1" "platform-small" 4 1 4 0 "cushion".
Definition block : Piece := box "block-2" "post-thick" 24 24 24 1 "wood".


(** A three-inch cylinder and a small cube, each taken hollow and solid. *)
Definition with_hollow (p : Piece) (b : bool) : Piece :=
  {| id := id p; name := name p; variantId := variantId p;
     width := width p; height := height p; depth := depth p;
     x := x p; y := y p; z := z p;
     hollow := b; shape := shape p; material := material p |}.


Definition drum : Piece :=
  shell "house-1" "house-cylinder" "cylinder" 3 3 3 0 "wood".
Definition cube : Piece :=
  shell "house-2" "house-basic" "box" 1.6 1.6 1.6 0 "wood".

(** The catalogue's basic house. *)
Definition den : Piece :=
  shell "house-3" "house-basic" "box" 14 12 14 0 "wood".

(** A ten-inch wooden cube (25 lb) and a thin board (5 lb). *)
Definition heavy : Piece := box "bed-1" "bed-box" 10 10 10 0 "wood".
Definition light : Piece := box "bed-2" "bed-box" 10 2 10 0 "wood".

(** The sum of [totalLoad] over the ids of [ids], read in the finished
    map. *)
Definition loadOf (m : SupportMap) (k : string) : Q :=
  match JS.get m k with
  | Some n => totalLoad n
  | None => 0
  end.

Definition sumLoads (m : SupportMap) (ids : list string) : Q :=
  fold_right (fun k acc => loadOf m k + acc) 0 ids.

(** Every support edge of the map goes from a piece to one whose bottom is
    strictly higher; a map with this property has no support cycle. *)
Definition risesAlongEdges (m : SupportMap) : bool :=
  forallb (fun node =>
             forallb (fun k =>
                        match JS.get m k with
                        | Some upper => JS.ltb (y (piece node)) (y (piece upper))
                        | None => false
                        end)
                     (supporting node))
          (JS.values m).

(** [reaches m a b]: a non-empty chain of support edges leads from the node
    of [a] up to [b]. *)
Inductive reaches (m : SupportMap) : string -> string -> Prop :=
| reaches_edge (a b : string) (n : Node) :
    JS.get m a = Some n -> In b (supporting n) -> reaches m a b
| reaches_trans (a b c : string) :
    reaches m a b -> reaches m b c -> reaches m a c.

Definition acyclic (m : SupportMap) : Prop :=
  forall a : string, ~ reaches m a a.

(** ** The recorded edges, for the proofs *)

(** A support edge, as (lower, upper). *)
Definition Edge := (Piece * Piece)%type.

(** What one (upper, lower) visit records. *)
Definition pairEdge (upperPiece lowerPiece : Piece) : list Edge :=
  if String.eqb (id upperPiece) (id lowerPiece) then []
  else if isSupporting lowerPiece upperPiece then [(lowerPiece, upperPiece)]
       else [].

(** The edges the two nested loops record, in their order. *)
Definition edgesOf (pieces : list Piece) : list Edge :=
  flat_map (fun upperPiece => flat_map (pairEdge upperPiece) pieces) pieces.

Definition outs (k : string) (E : list Edge) : list Edge :=
  filter (fun e => String.eqb (id (fst e)) k) E.

Definition ins (k : string) (E : list Edge) : list Edge :=
  filter (fun e => String.eqb (id (snd e)) k) E.

(** The map after the edges [E] have been recorded and before any load is
    computed. *)
Definition recorded (pieces : list Piece) (E : list Edge) (m : SupportMap)
  : Prop :=
  NoDup (JS.keys m) /\
  (forall p, In p pieces -> JS.get m (id p) <> None) /\
  forall k n, JS.get m k = Some n ->
    id (piece n) = k /\ In (piece n) pieces /\
    supporting n = map (fun e => id (snd e)) (outs k E) /\
    supportedBy n = map (fun e => id (fst e)) (ins k E) /\
    connections n =
      map (fun e => calculateConnectionPoint (fst e) (snd e)) (outs k E) /\
    totalLoad n = 0 /\ stressLevel n = 0.

(** Two nodes with the same piece and the same relations. *)
Definition sameGraph (n n' : Node) : Prop :=
  piece n' = piece n /\ supporting n' = supporting n /\
  supportedBy n' = supportedBy n /\ connections n' = connections n.

Definition graphPreserved (m m' : SupportMap) : Prop :=
  forall k,
    match JS.get m k, JS.get m' k with
    | Some n, Some n' => sameGraph n n'
    | None, None => True
    | _, _ => False
    end.

(** Every id a node lists is a key of the map. *)
Definition closed (m : SupportMap) : Prop :=
  forall k n, JS.get m k = Some n ->
    forall k', In k' (supporting n) \/ In k' (supportedBy n) ->
               JS.get m k' <> None.

(** The support rule of [isSupporting], as a proposition. *)
Definition supportRule (lowerPiece upperPiece : Piece) : Prop :=
  Qabs ((y lowerPiece + height lowerPiece) - y upperPiece) <= 1 /\
  2 <= calculateOverlap (x lowerPiece - width lowerPiece / 2)
                        (x lowerPiece + width lowerPiece / 2)
                        (x upperPiece - width upperPiece / 2)
                        (x upperPiece + width upperPiece / 2) /\
  2 <= calculateOverlap (z lowerPiece - depth lowerPiece / 2)
                        (z lowerPiece + depth lowerPiece / 2)
                        (z upperPiece - depth upperPiece / 2)
                        (z upperPiece + depth upperPiece / 2).




(** [q] is [n / 2^21] for an integer [n] of magnitude at most [B]. *)
Definition units (B : Z) (q : Q) : Prop :=
  exists n : Z, q == inject_Z n * 2 ^ (-21) /\ (Z.abs n <= B)%Z.

(** ** The weak points, for the proofs *)

(** [spotCapacity / results.safetyFactor] of a resting spot. *)
Definition halfCapacity (spot : Piece) : Q :=
  baseCapacity (materialOf (material spot)) * (width spot * depth spot) / 2.


(** ** Connection catalogue and recommendations *)

Record ConnectionInfo := {
  strength : Q;
  cost : Q;
  description : string
}.

Definition connectionTypes (c : ConnectionType) : ConnectionInfo :=
  match c with
  | none =>
      {| strength := 0; cost := 0;
         description := "No connection (just stacked)" |}
  | screws =>
      {| strength := 50; cost := 2; description := "Wood screws" |}
  | brackets_light =>
      {| strength := 75; cost := 5; description := "Light duty L-brackets" |}
  | brackets_heavy =>
      {| strength := 150; cost := 12; description := "Heavy duty brackets" |}
  | bolts =>
      {| strength := 200; cost := 8;
         description := "Through-bolts with washers" |}
  | glue_and_screws =>
      {| strength := 100; cost := 6; description := "Wood glue + screws" |}
  | metal_plate =>
      {| strength := 250; cost := 20;
         description := "Metal reinforcement plate" |}
  end.

Record ConnectionAdvice := {
  between : string * string;
  adv_type : ConnectionType;
  adv_description : string;
  adv_cost : Q;
  adv_strength : Q;
  location : Q * Q * Q
}.

Record ConnectionReport := {
  adv_connections : list ConnectionAdvice;
  totalHardwareCost : Q;
  count : nat
}.

(** One entry of [recommendations], for one contact record. *)
Definition adviceOf (conn : Connection) : ConnectionAdvice :=
  let connectionType := suggestedConnection conn in
  let connection := connectionTypes connectionType in
  {| between := (lowerPieceId conn, upperPieceId conn);
     adv_type := connectionType;
     adv_description := description connection;
     adv_cost := cost connection;
     adv_strength := strength connection;
     location := (conn_x conn, conn_y conn, conn_z conn) |}.

(** Every contact record of every node, in the order of the two nested
    [forEach]. *)
Definition allConnections (supportMap : SupportMap) : list Connection :=
  flat_map connections (JS.values supportMap).

Definition recommendConnections (supportMap : SupportMap) : ConnectionReport :=
  let conns := allConnections supportMap in
  let recommendations := map adviceOf conns in
  {| adv_connections := recommendations;
     totalHardwareCost :=
       fold_left (fun hardware conn =>
                    hardware + cost (connectionTypes (suggestedConnection conn)))
                 conns 0;
     count := length recommendations |}.

(** ** Stress colours *)

Definition green : Z := 0x00ff00.
Definition yellow : Z := 0xffff00.
Definition orange : Z := 0xff8800.
Definition red : Z := 0xff0000.

Definition getStressColor (stressLevel : Q) : Z :=
  if JS.ltb stressLevel 0.3 then green
  else if JS.ltb stressLevel 0.5 then yellow
  else if JS.ltb stressLevel 0.75 then orange
  else red.

(** ** The stress report *)

Record Summary := {
  sum_passed : bool;
  totalStructureWeight : Q;
  sum_maxCatWeight : option Q;
  totalCatWeight : Q;
  numberOfCats : nat;
  sum_safetyFactor : Q
}.

Record Report := {
  summary : Summary;
  supportStructure : SupportMap;
  testResults : Results;
  rep_connections : ConnectionReport;
  criticalPoints : list WeakPoint;
  rep_recommendations : list Recommendation
}.

(** [catWeights] is [None] when the argument is left out, and the default
    [[15]] applies. *)
Definition generateStressReport (pieces : list Piece)
  (catWeights : option (list Q)) : JS.outcome Report :=
  let catWeights := match catWeights with Some ws => ws | None => [15] end in
  supportMap <- analyzeSupportStructure pieces ;;
  testResults <- testCatWeights pieces catWeights supportMap ;;
  let connections := recommendConnections supportMap in
  let totalWeight := calculateTotalWeight pieces in
  JS.Done
    {| summary :=
         {| sum_passed := passed testResults;
            totalStructureWeight := JS.Math_round (totalWeight * 10) / 10;
            sum_maxCatWeight := JS.Math_max_spread catWeights;
            totalCatWeight := fold_left (fun sum w => sum + w) catWeights 0;
            numberOfCats := length catWeights;
            sum_safetyFactor := safetyFactor testResults |};
       supportStructure := supportMap;
       testResults := testResults;
       rep_connections := connections;
       criticalPoints := weakPoints testResults;
       rep_recommendations := recommendations testResults |}.

(** ** The cat list of the stress test panel *)

(** [Math.max(1, parseInt(value) || 1)]; [parseInt] gives NaN ([None]) or an
    integer. *)
Definition catWeightOf (parsedInt : option Z) : Q :=
  match parsedInt with
  | None => 1
  | Some n => Qmax 1 (if (n =? 0)%Z then 1 else inject_Z n)
  end.

(** [xs.filter((_, i) => keep(i))], counting from index [i]. *)
Fixpoint filterIndex (keep : nat -> bool) (i : nat) (xs : list Q) : list Q :=
  match xs with
  | [] => []
  | w :: rest =>
      if keep i then w :: filterIndex keep (S i) rest
      else filterIndex keep (S i) rest
  end.

(** [newWeights[index] = v] on a copy of the list, for an index inside the
    list or just behind it; a larger index leaves holes in the array, which
    the list model does not follow ([None]). *)
Fixpoint assignAt (xs : list Q) (index : nat) (v : Q) : option (list Q) :=
  match xs, index with
  | [], O => Some [v]
  | [], S _ => None
  | _ :: rest, O => Some (v :: rest)
  | w :: rest, S i => option_map (cons w) (assignAt rest i v)
  end.

(** The new state of the list after [handleWeightChange]. *)
Definition handleWeightChange (localCatWeights : list Q) (index : nat)
  (parsedInt : option Z) : option (list Q) :=
  assignAt localCatWeights index (catWeightOf parsedInt).

(** The new state of the list after [handleAddCat]. *)
Definition handleAddCat (localCatWeights : list Q) : list Q :=
  localCatWeights ++ [15].

(** The new state of the list after [handleRemoveCat] (unchanged when the
    guard fails). *)
Definition handleRemoveCat (localCatWeights : list Q) (index : nat)
  : list Q :=
  if (1 <? length localCatWeights)%nat
  then filterIndex (fun i => negb (i =? index)%nat) 0 localCatWeights
  else localCatWeights.

(** The three handlers as steps on the list. *)
Inductive catEdit :=
| WeightChange (index : nat) (parsedInt : option Z)
| AddCat
| RemoveCat (index : nat).

Definition applyEdit (ws : list Q) (e : catEdit) : option (list Q) :=
  match e with
  | WeightChange index parsedInt => handleWeightChange ws index parsedInt
  | AddCat => Some (handleAddCat ws)
  | RemoveCat index => Some (handleRemoveCat ws index)
  end.

Fixpoint applyEdits (ws : list Q) (es : list catEdit) : option (list Q) :=
  match es with
  | [] => Some ws
  | e :: rest =>
      match applyEdit ws e with
      | Some ws' => applyEdits ws' rest
      | None => None
      end
  end.

(** ** More sample pieces *)

Definition plank : Piece := box "platform-4" "platform-square" 12 1 12 0 "wood".
Definition plank_wide : Piece :=
  box "platform-5" "platform-square" 14 1 12 0 "wood".

(** Two boards half an inch high, one lying on the other. *)
Definition mat : Piece := box "platform-6" "platform-square" 12 0.5 12 0 "wood".
Definition rug : Piece := box "platform-7" "platform-square" 12 0.5 12 0.5 "wood".


(** A wooden bed of 12.5 lb. *)
Definition bench : Piece := box "bed-3" "bed-box" 10 5 10 0 "wood".


(** A sisal board whose exact weight argument is 13.5, and a wooden house
    whose inner volume weighs a hair more than 0.1 lb (its sides are
    binary64 numbers). *)
Definition sisal_board : Piece :=
  box "platform-10" "platform-square" 1 3 30 0 "sisal".
Definition thin_house : Piece :=
  shell "house-6" "house-basic" "box"
        (8227022077634857 # 281474976710656)
        (3396850852448081 # 2251799813685248)
        (5196544208098587 # 281474976710656) 0 "wood".

(** The catalogue's hollow cylinder, 12 inches each way. *)
Definition barrel : Piece :=
  shell "house-5" "house-cylinder" "cylinder" 12 12 12 0 "wood".

(** ** The outcome of a resting spot, for the proofs *)

Fixpoint sumQ (xs : list Q) : Q :=
  match xs with
  | [] => 0
  | v :: rest => v + sumQ rest
  end.

(** [spotCapacity] of a resting spot. *)
Definition spotCapacity (spot : Piece) : Q :=
  baseCapacity (materialOf (material spot)) * (width spot * depth spot).

(** The spot's load with the heaviest cat is strictly above half its
    capacity. *)
Definition spotFails (m : SupportMap) (maxSingleCat : option Q)
  (spot : Piece) : bool :=
  withCat_gtb (loadOf m (id spot)) maxSingleCat (halfCapacity spot).

(** The weak point and the entry the test writes for a spot. *)
Definition weakPointFor (m : SupportMap) (maxSingleCat : option Q)
  (spot : Piece) : WeakPoint :=
  {| wp_pieceId := id spot;
     wp_pieceName := name spot;
     issue := CannotSafelySupport maxSingleCat;
     currentCapacity :=
       JS.Math_round (halfCapacity spot - loadOf m (id spot));
     required := maxSingleCat |}.

Definition entryFor (m : SupportMap) (maxSingleCat : option Q)
  (spot : Piece) : CatSpot :=
  {| spot_name := name spot;
     currentLoad := loadOf m (id spot);
     capacity := spotCapacity spot;
     canHoldCat :=
       withCat_ltb (loadOf m (id spot)) maxSingleCat (halfCapacity spot);
     maxCatWeight := Qmax 0 (halfCapacity spot - loadOf m (id spot)) |}.

(** ** Levelled designs, for the proofs *)



(** The map the analysis returns for a design (empty if it threw). *)
Definition analysed (pieces : list Piece) : SupportMap :=
  match analyzeSupportStructure pieces with
  | JS.Done m => m
  | _ => []
  end.

(** * Properties *)

(** ** Comparisons and rounding *)

Lemma ltb_lt (a b : Q) : JS.ltb a b = true <-> a < b.
Proof.
  unfold JS.ltb. rewrite negb_true_iff.
  split; intro H.
  - apply Qnot_le_lt. intro Hle. apply Qle_bool_iff in Hle. congruence.
  - destruct (Qle_bool b a) eqn:E; [|reflexivity].
    apply Qle_bool_iff in E. exfalso. exact (Qlt_not_le _ _ H E).
Qed.

Lemma ltb_ge (a b : Q) : JS.ltb a b = false <-> b <= a.
Proof.
  unfold JS.ltb. rewrite negb_false_iff. apply Qle_bool_iff.
Qed.

Lemma gtb_gt (a b : Q) : JS.gtb a b = true <-> b < a.
Proof. apply ltb_lt. Qed.

Lemma gtb_le (a b : Q) : JS.gtb a b = false <-> a <= b.
Proof. apply ltb_ge. Qed.

Lemma geb_ge (a b : Q) : JS.geb a b = true <-> b <= a.
Proof. apply Qle_bool_iff. Qed.

Lemma Math_round_mono (a b : Q) : a <= b -> JS.Math_round a <= JS.Math_round b.
Proof.
  intro H. unfold JS.Math_round.
  rewrite <- Zle_Qle. apply Qfloor_resp_le.
  apply Qplus_le_compat; [exact H | apply Qle_refl].
Qed.

Lemma Math_round_nonneg (a : Q) : 0 <= a -> 0 <= JS.Math_round a.
Proof.
  intro H. change 0 with (JS.Math_round 0) at 1.
  now apply Math_round_mono.
Qed.

Lemma density_pos (m : string) : 0 < density (materialOf m).
Proof.
  unfold materialOf, materialStrength, JS.get.
  repeat (destruct (String.eqb m _); [reflexivity|]).
  reflexivity.
Qed.

Lemma baseCapacity_pos (m : string) : 0 < baseCapacity (materialOf m).
Proof.
  unfold materialOf, materialStrength, JS.get.
  repeat (destruct (String.eqb m _); [reflexivity|]).
  reflexivity.
Qed.

(** The weight is monotone in the volume, whatever the material. *)
Lemma weight_mono (p q : Piece) :
  material p = material q ->
  pieceVolume p <= pieceVolume q ->
  calculatePieceWeight p <= calculatePieceWeight q.
Proof.
  intros Hm Hv. unfold calculatePieceWeight. rewrite Hm.
  apply Qmult_le_compat_r; [|discriminate].
  apply Math_round_mono.
  apply Qmult_le_compat_r; [|discriminate].
  apply Qmult_le_compat_r; [exact Hv|].
  apply Qlt_le_weak, density_pos.
Qed.

Lemma weight_nonneg (p : Piece) :
  0 <= pieceVolume p -> 0 <= calculatePieceWeight p.
Proof.
  intro Hv. unfold calculatePieceWeight.
  apply Qle_shift_div_l; [reflexivity|]. rewrite Qmult_0_l.
  apply Math_round_nonneg.
  apply Qmult_le_0_compat; [|discriminate].
  apply Qmult_le_0_compat; [exact Hv|].
  apply Qlt_le_weak, density_pos.
Qed.

Ltac name_max a b :=
  let m := fresh "m" in
  let Hm := fresh "Hm" in
  let E := fresh "E" in
  pose proof (Q.max_spec a b) as Hm;
  remember (Qmax a b) as m eqn:E; clear E;
  destruct Hm as [[? ?] | [? ?]].

Ltac name_min a b :=
  let m := fresh "m" in
  let Hm := fresh "Hm" in
  let E := fresh "E" in
  pose proof (Q.min_spec a b) as Hm;
  remember (Qmin a b) as m eqn:E; clear E;
  destruct Hm as [[? ?] | [? ?]].

(** Case analysis on every [Qmax] and [Qmin] in sight. *)
Ltac split_minmax :=
  repeat match goal with
    | |- context [Qmax ?a ?b] => name_max a b
    | |- context [Qmin ?a ?b] => name_min a b
    | H : context [Qmax ?a ?b] |- _ => name_max a b
    | H : context [Qmin ?a ?b] |- _ => name_min a b
    end.

Lemma Qmult_le_mono (a b c d : Q) :
  0 <= a -> a <= b -> 0 <= c -> c <= d -> a * c <= b * d.
Proof.
  intros Ha Hab Hc Hcd.
  apply Qle_trans with (b * c).
  - apply Qmult_le_compat_r; assumption.
  - rewrite (Qmult_comm b c), (Qmult_comm b d).
    apply Qmult_le_compat_r; [assumption | lra].
Qed.

(** ** Weight of hollow and solid pieces *)




(** A side that is at least the wall thickness loses at most its own
    length when twice the wall is taken off, in absolute value; so the
    floored inner volume cannot exceed the outer one. *)
Lemma hollow_volume_from_wall (p : Piece) :
  hollow p = true ->
  wallThickness <= width p -> wallThickness <= height p ->
  wallThickness <= depth p ->
  0 <= pieceVolume p.
Proof.
  intros Hh Hw Hhe Hd.
  unfold pieceVolume. rewrite Hh.
  unfold outerVolume, innerVolume, wallThickness in *.
  set (w := width p) in *. set (h := height p) in *. set (d := depth p) in *.
  assert (Hside : forall v : Q, 0.75 <= v ->
            0 <= Qabs (v - 2 * 0.75) /\ Qabs (v - 2 * 0.75) <= v).
  { intros v Hv. split; [apply Qabs_nonneg|].
    apply Qabs_Qle_condition. split; lra. }
  destruct (Hside w Hw) as (Wa & Wb).
  destruct (Hside h Hhe) as (Ha & Hb).
  destruct (Hside d Hd) as (Da & Db).
  assert (Hprod : (w - 2 * 0.75) * (h - 2 * 0.75) * (d - 2 * 0.75)
                  <= w * h * d).
  { eapply Qle_trans; [apply Qle_Qabs|].
    rewrite !Qabs_Qmult.
    apply Qmult_le_mono; [| | exact Da | exact Db].
    - apply Qmult_le_0_compat; assumption.
    - apply Qmult_le_mono; assumption. }
  assert (Hout : 0 <= w * h * d).
  { repeat apply Qmult_le_0_compat; lra. }
  destruct (Q.max_spec 0 ((w - 2 * 0.75) * (h - 2 * 0.75) * (d - 2 * 0.75)))
    as [[_ Emax] | [_ Emax]]; rewrite Emax; lra.
Qed.



(** The floor of the inner volume does keep the volume non-negative when no
    side is thinner than twice the wall. *)
Lemma hollow_volume_nonneg (p : Piece) :
  hollow p = true ->
  2 * wallThickness <= width p ->
  2 * wallThickness <= height p ->
  2 * wallThickness <= depth p ->
  0 <= pieceVolume p.
Proof.
  intros Hh Hw Hhe Hd. unfold pieceVolume. rewrite Hh.
  unfold outerVolume, innerVolume.
  set (t := 2 * wallThickness) in *.
  assert (Ht : 0 <= t) by discriminate.
  assert (H1 : 0 <= width p - t) by lra.
  assert (H2 : 0 <= height p - t) by lra.
  assert (H3 : 0 <= depth p - t) by lra.
  assert (Hin : (width p - t) * (height p - t) * (depth p - t)
                <= width p * height p * depth p).
  { apply Qle_trans with (width p * height p * (depth p - t)).
    - apply Qmult_le_compat_r; [|exact H3].
      apply Qle_trans with (width p * (height p - t)).
      + apply Qmult_le_compat_r; [lra | exact H2].
      + rewrite (Qmult_comm (width p)), (Qmult_comm (width p)).
        apply Qmult_le_compat_r; lra.
    - rewrite (Qmult_comm _ (depth p - t)), (Qmult_comm _ (depth p)).
      apply Qmult_le_compat_r; [lra|].
      apply Qmult_le_0_compat; lra. }
  assert (Hout : 0 <= width p * height p * depth p).
  { repeat apply Qmult_le_0_compat; lra. }
  destruct (Q.max_spec 0 ((width p - t) * (height p - t) * (depth p - t)))
    as [[_ E] | [_ E]]; rewrite E; lra.
Qed.

(** C5, as stated, fails twice.  A hollow wooden "cylinder" 3 x 3 x 3 is
    weighed as a box shell (0.6 lb) and is heavier than the solid cylinder of
    the same outer dimensions (0.5 lb); and a wooden box 1.6 x 1.6 x 1.6,
    whose smallest side is more than twice the wall, weighs 0.1 lb hollow
    and solid alike once rounded to one decimal. *)
Lemma hollow_le_solid_counterexample :
  (0 < width drum /\ 0 < height drum /\ 0 < depth drum /\
   ~ calculatePieceWeight (with_hollow drum true)
       <= calculatePieceWeight (with_hollow drum false)) /\
  (0 < width cube /\ 0 < height cube /\ 0 < depth cube /\
   0.75 < width cube / 2 /\ 0.75 < height cube / 2 /\ 0.75 < depth cube / 2 /\
   ~ calculatePieceWeight (with_hollow cube true)
       < calculatePieceWeight (with_hollow cube false)).
Proof.
  repeat split; try reflexivity; vm_compute; intro H;
    first [ discriminate H | apply H; reflexivity ].
Qed.

(** Rounding separates two numbers that are at least 1 apart. *)
Lemma Math_round_apart (a b : Q) :
  a + 1 <= b -> JS.Math_round a < JS.Math_round b.
Proof.
  intro H. unfold JS.Math_round. rewrite <- Zlt_Qlt.
  pose proof (Qfloor_le (a + 0.5)) as Ha.
  pose proof (Qlt_floor (b + 0.5)) as Hb.
  rewrite inject_Z_plus in Hb.
  apply Z.add_lt_mono_r with (p := 1%Z).
  rewrite Zlt_Qlt, !inject_Z_plus.
  change (inject_Z 1) with 1 in *. lra.
Qed.

Lemma density_min (m : string) : 0.003 <= density (materialOf m).
Proof.
  unfold materialOf, materialStrength, JS.get.
  repeat (destruct (String.eqb m _); [discriminate|]).
  discriminate.
Qed.

(** A side of at least [s] inches keeps the fraction [1 - 1.5/s] of its
    length when twice the wall is taken off; so the inner box of a piece
    with all sides of at least [s] inches fills at least the cube of that
    fraction of the outer box. *)
Lemma inner_fraction (p : Piece) (s f : Q) :
  0 < f -> f <= 1 -> 0 < s -> f * s == s - 2 * 0.75 ->
  s <= width p -> s <= height p -> s <= depth p ->
  f * f * f * (width p * height p * depth p) <= innerVolume p.
Proof.
  intros Hf Hf1 Hs Es Hw Hh Hd.
  unfold innerVolume, wallThickness.
  eapply Qle_trans; [|apply Q.le_max_r].
  assert (Hside : forall v : Q, s <= v -> 0 <= f * v /\ f * v <= v - 2 * 0.75).
  { intros v Hv. split; [apply Qmult_le_0_compat; lra|].
    assert (E : f * v == f * s + f * (v - s)) by ring.
    assert (f * (v - s) <= 1 * (v - s))
      by (apply Qmult_le_compat_r; lra).
    lra. }
  destruct (Hside _ Hw) as (W0 & W1).
  destruct (Hside _ Hh) as (H0 & H1).
  destruct (Hside _ Hd) as (D0 & D1).
  assert (E : f * f * f * (width p * height p * depth p)
              == f * width p * (f * height p) * (f * depth p)) by ring.
  rewrite E.
  apply Qmult_le_mono; [| | exact D0 | exact D1].
  - apply Qmult_le_0_compat; assumption.
  - apply Qmult_le_mono; assumption.
Qed.

(** C5, amended.  For a material that is not an inherited property name and
    identical outer dimensions, the hollow piece weighs at most what the
    solid one weighs when the shape is not "cylinder", and also for a
    "cylinder" whose sides are at least 4 inches and whose depth does not
    exceed its width (the solid cylinder ignores the depth).  The hollow
    weight is strictly smaller for a shape other than "cylinder" once the
    inner volume weighs at least 0.11 lb, for positive sides within the
    limits of the editor, 48 x 72 x 48 inches (in exact arithmetic 0.1 lb is
    enough; the margin covers the binary64 error of the code), and for a
    "cylinder" with sides of at least 8 inches and depth at most the
    width. *)
Theorem hollow_le_solid (p : Piece) :
  JS.inherited (material p) = false ->
  (shape p <> "cylinder"%string ->
   calculatePieceWeight (with_hollow p true)
     <= calculatePieceWeight (with_hollow p false)) /\
  (shape p = "cylinder"%string ->
   4 <= width p -> 4 <= height p -> 4 <= depth p -> depth p <= width p ->
   calculatePieceWeight (with_hollow p true)
     <= calculatePieceWeight (with_hollow p false)) /\
  (shape p <> "cylinder"%string ->
   0 < width p <= 48 -> 0 < height p <= 72 -> 0 < depth p <= 48 ->
   0.11 <= innerVolume p * density (materialOf (material p)) ->
   calculatePieceWeight (with_hollow p true)
     < calculatePieceWeight (with_hollow p false)) /\
  (shape p = "cylinder"%string ->
   8 <= width p -> 8 <= height p -> 8 <= depth p -> depth p <= width p ->
   calculatePieceWeight (with_hollow p true)
     < calculatePieceWeight (with_hollow p false)).
Proof.
  intros _.
  assert (Hhollow : pieceVolume (with_hollow p true)
                    = width p * height p * depth p - innerVolume p).
  { reflexivity. }
  assert (Hbox : shape p <> "cylinder"%string ->
                 pieceVolume (with_hollow p false)
                 = width p * height p * depth p).
  { intro Hs. apply String.eqb_neq in Hs.
    unfold pieceVolume. simpl. rewrite Hs. reflexivity. }
  assert (Hcyl : shape p = "cylinder"%string ->
                 pieceVolume (with_hollow p false)
                 = JS.Math_PI * (width p / 2 * (width p / 2)) * height p).
  { intro Hs. unfold pieceVolume. simpl. rewrite Hs. reflexivity. }
  assert (Hround : forall f s : Q, 0 < f -> f <= 1 -> 0 < s ->
            f * s == s - 2 * 0.75 ->
            s <= width p -> s <= height p -> s <= depth p ->
            depth p <= width p ->
            width p * height p * depth p - innerVolume p
              <= (1 - f * f * f) * (width p * height p * width p) /\
            s * s * s <= width p * height p * width p).
  { intros f s Hf Hf1 Hs Es Hw Hh Hd Hdw.
    pose proof (inner_fraction p s f Hf Hf1 Hs Es Hw Hh Hd) as Hin.
    assert (Hwh : 0 <= width p * height p)
      by (apply Qmult_le_0_compat; lra).
    assert (Hvol : width p * height p * depth p
                   <= width p * height p * width p)
      by (apply Qmult_le_mono; lra).
    assert (Hfff : 0 <= f * f * f)
      by (repeat apply Qmult_le_0_compat; lra).
    assert (Hff1 : f * f <= 1 * 1) by (apply Qmult_le_mono; lra).
    assert (Hfff1 : f * f * f <= 1 * 1 * 1)
      by (apply Qmult_le_mono; try lra; apply Qmult_le_0_compat; lra).
    assert (Hscale : (1 - f * f * f) * (width p * height p * depth p)
                     <= (1 - f * f * f) * (width p * height p * width p))
      by (apply Qmult_le_mono; try lra;
          repeat apply Qmult_le_0_compat; lra).
    split; [lra|].
    apply Qmult_le_mono; [| | lra | exact Hw].
    - apply Qmult_le_0_compat; lra.
    - apply Qmult_le_mono; lra. }
  split; [|split; [|split]].
  - intro Hs. apply weight_mono; [reflexivity|].
    rewrite (Hbox Hs), Hhollow.
    assert (0 <= innerVolume p) by apply Q.le_max_l.
    lra.
  - intros Hs Hw Hh Hd Hdw. apply weight_mono; [reflexivity|].
    rewrite (Hcyl Hs), Hhollow.
    destruct (Hround (5 # 8) 4) as (Hshell & Hbig);
      try assumption; try reflexivity; try discriminate.
    assert (E : JS.Math_PI * (width p / 2 * (width p / 2)) * height p
                == JS.Math_PI / 4 * (width p * height p * width p))
      by (field).
    rewrite E.
    assert (Hpi : 1 - (5 # 8) * (5 # 8) * (5 # 8) <= JS.Math_PI / 4)
      by (vm_compute; discriminate).
    assert (0 <= width p * height p * width p) by lra.
    eapply Qle_trans; [exact Hshell|].
    apply Qmult_le_compat_r; assumption.
  - intros Hs _ _ _ Hin. unfold calculatePieceWeight.
    rewrite (Hbox Hs), Hhollow. simpl.
    apply Qmult_lt_compat_r; [reflexivity|].
    apply Math_round_apart.
    set (d := density (materialOf (material p))) in *.
    set (v := width p * height p * depth p).
    set (i := innerVolume p) in *.
    assert (E : (v - i) * d * 10 + 1 == v * d * 10 - (i * d * 10 - 1)) by ring.
    rewrite E. lra.
  - intros Hs Hw Hh Hd Hdw. unfold calculatePieceWeight.
    rewrite (Hcyl Hs), Hhollow. simpl.
    apply Qmult_lt_compat_r; [reflexivity|].
    apply Math_round_apart.
    destruct (Hround (13 # 16) 8) as (Hshell & Hbig);
      try assumption; try reflexivity; try discriminate.
    assert (E : JS.Math_PI * (width p / 2 * (width p / 2)) * height p
                == JS.Math_PI / 4 * (width p * height p * width p))
      by (field).
    rewrite E.
    pose proof (density_min (material p)) as Hrho.
    set (d := density (materialOf (material p))) in *.
    set (i := innerVolume p) in *.
    set (v := width p * height p * depth p) in *.
    set (c := width p * height p * width p) in *.
    assert (Hgap : 164 <= JS.Math_PI / 4 * c - (v - i)).
    { assert (Hpi : (1 - (13 # 16) * (13 # 16) * (13 # 16)) + (321 # 1000)
                    <= JS.Math_PI / 4) by (vm_compute; discriminate).
      assert (Hc : 8 * 8 * 8 <= c) by exact Hbig.
      assert (H1 : JS.Math_PI / 4 * c
                   == (1 - (13 # 16) * (13 # 16) * (13 # 16)) * c
                      + (JS.Math_PI / 4
                         - (1 - (13 # 16) * (13 # 16) * (13 # 16))) * c)
        by ring.
      assert (H2 : (321 # 1000) * (8 * 8 * 8)
                   <= (JS.Math_PI / 4
                       - (1 - (13 # 16) * (13 # 16) * (13 # 16))) * c).
      { apply Qmult_le_mono; first [lra | discriminate]. }
      assert (H3 : 164 <= (321 # 1000) * (8 * 8 * 8))
        by (vm_compute; discriminate).
      lra. }
    assert (Hmass : 164 * 0.003 <= (JS.Math_PI / 4 * c - (v - i)) * d).
    { apply Qmult_le_mono; first [lra | discriminate]. }
    assert (E2 : (v - i) * d * 10 + 1
                 == JS.Math_PI / 4 * c * d * 10
                    - ((JS.Math_PI / 4 * c - (v - i)) * d * 10 - 1)) by ring.
    rewrite E2. lra.
Qed.

Lemma hollow_le_solid_witness :
  calculatePieceWeight (with_hollow den true)
    <= calculatePieceWeight (with_hollow den false) /\
  calculatePieceWeight (with_hollow den true)
    < calculatePieceWeight (with_hollow den false) /\
  calculatePieceWeight (with_hollow barrel true)
    <= calculatePieceWeight (with_hollow barrel false) /\
  calculatePieceWeight (with_hollow barrel true)
    < calculatePieceWeight (with_hollow barrel false).
Proof.
  destruct (hollow_le_solid den eq_refl) as (Hle & _ & Hlt & _).
  destruct (hollow_le_solid barrel eq_refl) as (_ & Hcle & _ & Hclt).
  assert (Hs : shape den <> "cylinder"%string) by (simpl; discriminate).
  split; [exact (Hle Hs)|]. split.
  - apply (Hlt Hs);
      try (split; [reflexivity | discriminate]); vm_compute; discriminate.
  - split.
    + apply Hcle; [reflexivity | | | | ]; vm_compute; discriminate.
    + apply Hclt; [reflexivity | | | | ]; vm_compute; discriminate.
Defined.

(** ** Connection tiers *)

Ltac decide_cmp :=
  repeat match goal with
    | H : ?a < ?b |- context [JS.ltb ?a ?b] => rewrite (proj2 (ltb_lt a b) H)
    | H : ?b <= ?a |- context [JS.ltb ?a ?b] => rewrite (proj2 (ltb_ge a b) H)
    | H : ?b < ?a |- context [JS.gtb ?a ?b] => rewrite (proj2 (gtb_gt a b) H)
    | H : ?a <= ?b |- context [JS.gtb ?a ?b] => rewrite (proj2 (gtb_le a b) H)
    end.

(** C9. The suggested connection follows the tier table on the overlap
    area and on the weight of the upper piece itself, as
    [calculatePieceWeight] returns it; and the contact record built for a
    pair carries the suggestion for its own overlap area and upper piece. *)
Theorem suggestConnection_tiers (a : Q) (u : Piece) :
  (a < 4 -> 20 < calculatePieceWeight u ->
     suggestConnection a u = metal_plate) /\
  (a < 4 -> calculatePieceWeight u <= 20 ->
     suggestConnection a u = brackets_heavy) /\
  (4 <= a -> a < 16 -> 15 < calculatePieceWeight u ->
     suggestConnection a u = brackets_heavy) /\
  (4 <= a -> a < 16 -> calculatePieceWeight u <= 15 ->
     suggestConnection a u = brackets_light) /\
  (16 <= a -> 10 < calculatePieceWeight u ->
     suggestConnection a u = glue_and_screws) /\
  (16 <= a -> calculatePieceWeight u <= 10 ->
     suggestConnection a u = screws) /\
  (forall l : Piece,
     suggestedConnection (calculateConnectionPoint l u)
     = suggestConnection (area (calculateConnectionPoint l u)) u).
Proof.
  unfold suggestConnection.
  repeat split; intros; try reflexivity;
    try (assert (4 <= a) by lra); decide_cmp; reflexivity.
Qed.

Lemma suggestConnection_tiers_witness :
  suggestConnection 3 heavy = metal_plate /\
  suggestConnection 3 light = brackets_heavy.
Proof.
  destruct (suggestConnection_tiers 3 heavy) as [Hheavy _].
  destruct (suggestConnection_tiers 3 light) as [_ [Hlight _]].
  split.
  - apply Hheavy; reflexivity.
  - apply Hlight; [reflexivity | vm_compute; discriminate].
Defined.


(** ** Objects as maps *)

Section ObjFacts.
Context {V : Type}.
Implicit Types (o : JS.obj V) (k : string) (v : V).

Lemma get_set o k v k' :
  JS.get (JS.set o k v) k' = if String.eqb k' k then Some v else JS.get o k'.
Proof.
  induction o as [|[k0 v0] o IH]; simpl.
  - destruct (String.eqb k' k); reflexivity.
  - destruct (String.eqb k k0) eqn:E; simpl.
    + apply String.eqb_eq in E. subst k0.
      destruct (String.eqb k' k); reflexivity.
    + rewrite IH. destruct (String.eqb k' k0) eqn:E'; [|reflexivity].
      apply String.eqb_eq in E'. subst k0.
      rewrite String.eqb_sym, E. reflexivity.
Qed.

Lemma get_set_same o k v : JS.get (JS.set o k v) k = Some v.
Proof. rewrite get_set, String.eqb_refl. reflexivity. Qed.

Lemma get_set_other o k v k' :
  k' <> k -> JS.get (JS.set o k v) k' = JS.get o k'.
Proof.
  intro H. rewrite get_set. apply String.eqb_neq in H. rewrite H.
  reflexivity.
Qed.

Lemma get_in_keys o k : JS.get o k <> None <-> In k (JS.keys o).
Proof.
  induction o as [|[k0 v0] o IH]; simpl.
  - split; [congruence | tauto].
  - destruct (String.eqb k k0) eqn:E.
    + apply String.eqb_eq in E. subst. split; [auto | congruence].
    + apply String.eqb_neq in E. rewrite IH. split; [auto|].
      intros [H|H]; [congruence | exact H].
Qed.

Lemma keys_set_in o k v k' :
  In k' (JS.keys (JS.set o k v)) <-> k' = k \/ In k' (JS.keys o).
Proof.
  rewrite <- !get_in_keys, get_set.
  destruct (String.eqb k' k) eqn:E.
  - apply String.eqb_eq in E. split; [auto | congruence].
  - apply String.eqb_neq in E. split; [auto|]. intros [H|H]; congruence.
Qed.

Lemma NoDup_keys_set o k v : NoDup (JS.keys o) -> NoDup (JS.keys (JS.set o k v)).
Proof.
  induction o as [|[k0 v0] o IH]; simpl; intro H.
  - constructor; [intros [] | constructor].
  - inversion H as [|? ? Hin Hnd]; subst.
    destruct (String.eqb k k0) eqn:E; simpl.
    + constructor; assumption.
    + constructor; [|auto].
      intro Hin'. apply keys_set_in in Hin'. destruct Hin' as [->|Hin'].
      * rewrite String.eqb_refl in E. discriminate.
      * contradiction.
Qed.

Lemma in_get o k v : NoDup (JS.keys o) -> In (k, v) o -> JS.get o k = Some v.
Proof.
  induction o as [|[k0 v0] o IH]; simpl; intros Hnd Hin; [contradiction|].
  inversion Hnd as [|? ? Hnotin Hnd']; subst.
  destruct Hin as [Heq | Hin].
  - inversion Heq; subst. rewrite String.eqb_refl. reflexivity.
  - destruct (String.eqb k k0) eqn:E.
    + apply String.eqb_eq in E. subst k0. exfalso. apply Hnotin.
      change k with (fst (k, v)). apply in_map. exact Hin.
    + auto.
Qed.

Lemma get_in o k v : JS.get o k = Some v -> In (k, v) o.
Proof.
  induction o as [|[k0 v0] o IH]; simpl; [discriminate|].
  destruct (String.eqb k k0) eqn:E.
  - apply String.eqb_eq in E. intro H. inversion H. subst. auto.
  - auto.
Qed.

Lemma deref_done o k v : JS.get o k = Some v -> JS.deref o k = JS.Done v.
Proof. unfold JS.deref. intros ->. reflexivity. Qed.

End ObjFacts.

Lemma has_cons (pr : list string) (k k' : string) :
  JS.has (k :: pr) k' = String.eqb k' k || JS.has pr k'.
Proof. reflexivity. Qed.

(** ** Building the support graph *)

Lemma isSupporting_rule (l u : Piece) :
  isSupporting l u = true <-> supportRule l u.
Proof.
  unfold isSupporting, supportRule.
  fold (overlapX l u) (overlapZ l u).
  destruct (JS.gtb (Qabs (y l + height l - y u)) 1) eqn:E.
  - apply gtb_gt in E. split; [discriminate|].
    intros [H _]. exfalso. exact (Qlt_not_le _ _ E H).
  - apply gtb_le in E. rewrite andb_true_iff, !geb_ge. tauto.
Qed.

Lemma outs_app k E E' : outs k (E ++ E') = outs k E ++ outs k E'.
Proof. apply filter_app. Qed.

Lemma ins_app k E E' : ins k (E ++ E') = ins k E ++ ins k E'.
Proof. apply filter_app. Qed.

Lemma in_pairEdge (u l : Piece) (e : Edge) :
  In e (pairEdge u l) <->
  e = (l, u) /\ id u <> id l /\ isSupporting l u = true.
Proof.
  unfold pairEdge.
  destruct (String.eqb (id u) (id l)) eqn:E.
  - apply String.eqb_eq in E. simpl. split; [tauto|]. intros (_ & H & _). auto.
  - apply String.eqb_neq in E.
    destruct (isSupporting l u); simpl.
    + split; [intros [<-|[]]; auto | intros (-> & _); auto].
    + split; [tauto | intros (_ & _ & H); discriminate].
Qed.

Lemma in_edgesOf (pieces : list Piece) (l u : Piece) :
  In (l, u) (edgesOf pieces) <->
  In l pieces /\ In u pieces /\ id u <> id l /\ isSupporting l u = true.
Proof.
  unfold edgesOf. rewrite in_flat_map. split.
  - intros (u' & Hu & H). apply in_flat_map in H. destruct H as (l' & Hl & H).
    apply in_pairEdge in H. destruct H as (Heq & Hne & Hs).
    inversion Heq; subst. auto.
  - intros (Hl & Hu & Hne & Hs). exists u. split; [exact Hu|].
    apply in_flat_map. exists l. split; [exact Hl|].
    apply in_pairEdge. auto.
Qed.

Lemma initSupportMap_from (pieces : list Piece) (m0 : SupportMap) :
  let m := fold_left (fun m p => JS.set m (id p) (freshNode p)) pieces m0 in
  (NoDup (JS.keys m0) -> NoDup (JS.keys m)) /\
  (forall k, JS.get m0 k <> None -> JS.get m k <> None) /\
  (forall p, In p pieces -> JS.get m (id p) <> None) /\
  (forall k n, JS.get m k = Some n ->
     JS.get m0 k = Some n \/ exists p, In p pieces /\ id p = k /\ n = freshNode p).
Proof.
  revert m0. induction pieces as [|p ps IH]; intro m0; simpl.
  - split; [|split; [|split]]; auto; intros p [].
  - destruct (IH (JS.set m0 (id p) (freshNode p))) as (H1 & H2 & H3 & H4).
    split; [|split; [|split]].
    + intro Hnd. apply H1, NoDup_keys_set, Hnd.
    + intros k Hk. apply H2. rewrite get_set.
      destruct (String.eqb k (id p)); [discriminate | exact Hk].
    + intros q [<-|Hq]; [|auto].
      apply H2. rewrite get_set_same. discriminate.
    + intros k n Hk. destruct (H4 k n Hk) as [Hget | (q & Hq & Hid & Hn)].
      * rewrite get_set in Hget.
        destruct (String.eqb k (id p)) eqn:E; [|auto].
        apply String.eqb_eq in E. inversion Hget; subst.
        right. exists p. auto.
      * right. exists q. auto.
Qed.

Lemma initSupportMap_recorded (pieces : list Piece) :
  recorded pieces [] (initSupportMap pieces).
Proof.
  destruct (initSupportMap_from pieces []) as (H1 & _ & H3 & H4).
  fold (initSupportMap pieces) in *.
  split; [apply H1; constructor|]. split; [exact H3|].
  intros k n Hk. destruct (H4 k n Hk) as [H | (p & Hp & Hid & ->)].
  - discriminate.
  - simpl. tauto.
Qed.

Lemma visitPair_recorded (pieces : list Piece) (E : list Edge)
  (m : SupportMap) (u l : Piece) :
  recorded pieces E m -> In u pieces -> In l pieces ->
  exists m', visitPair u m l = JS.Done m' /\
             recorded pieces (E ++ pairEdge u l) m'.
Proof.
  intros Hrec Hu Hl. destruct Hrec as (Hnd & Hall & Hnodes) eqn:Erec.
  clear Erec. unfold visitPair, pairEdge.
  destruct (String.eqb (id u) (id l)) eqn:Eid.
  { exists m. rewrite app_nil_r. auto. }
  destruct (isSupporting l u) eqn:Esup.
  2:{ exists m. rewrite app_nil_r. auto. }
  apply String.eqb_neq in Eid.
  destruct (JS.get m (id l)) as [nl|] eqn:Gl; [|exfalso; exact (Hall l Hl Gl)].
  destruct (JS.get m (id u)) as [nu|] eqn:Gu; [|exfalso; exact (Hall u Hu Gu)].
  rewrite (deref_done _ _ _ Gl). simpl.
  rewrite (deref_done _ _ (nu)).
  2:{ rewrite get_set_other by exact Eid. exact Gu. }
  simpl.
  rewrite (deref_done _ _ (push_supporting nl (id u))).
  2:{ rewrite get_set_other by congruence. apply get_set_same. }
  simpl. eexists. split; [reflexivity|].
  split; [repeat apply NoDup_keys_set; exact Hnd|].
  split.
  { intros p Hp. rewrite !get_set.
    destruct (String.eqb (id p) (id l)); [discriminate|].
    destruct (String.eqb (id p) (id u)); [discriminate|]. auto. }
  intros k n. rewrite !get_set, outs_app, ins_app, !map_app.
  unfold outs at 2 4, ins at 2. simpl.
  destruct (String.eqb k (id l)) eqn:Ekl.
  - apply String.eqb_eq in Ekl. subst k. intro H. inversion H; subst n; clear H.
    destruct (Hnodes _ _ Gl) as (I1 & I2 & I3 & I4 & I5 & I6 & I7).
    rewrite String.eqb_refl.
    replace (String.eqb (id u) (id l)) with false
      by (symmetry; apply String.eqb_neq; exact Eid).
    simpl. rewrite app_nil_r, I3, I4, I5. repeat split; auto.
  - destruct (String.eqb k (id u)) eqn:Eku.
    + apply String.eqb_eq in Eku. subst k. intro H. inversion H; subst n; clear H.
      destruct (Hnodes _ _ Gu) as (I1 & I2 & I3 & I4 & I5 & I6 & I7).
      rewrite String.eqb_refl.
      replace (String.eqb (id l) (id u)) with false
        by (symmetry; apply String.eqb_neq; congruence).
      simpl. rewrite !app_nil_r, I3, I4, I5. repeat split; auto.
    + intro Gk.
      destruct (Hnodes _ _ Gk) as (I1 & I2 & I3 & I4 & I5 & I6 & I7).
      rewrite (String.eqb_sym (id l) k), Ekl.
      rewrite (String.eqb_sym (id u) k), Eku.
      simpl. rewrite !app_nil_r. repeat split; auto.
Qed.

Lemma innerLoop_recorded (pieces : list Piece) (u : Piece) (ls : list Piece) :
  In u pieces -> incl ls pieces ->
  forall (E : list Edge) (m : SupportMap),
    recorded pieces E m ->
    exists m', forEachM (visitPair u) ls m = JS.Done m' /\
               recorded pieces (E ++ flat_map (pairEdge u) ls) m'.
Proof.
  intros Hu. induction ls as [|l ls IH]; intros Hincl E m Hrec; simpl.
  - exists m. rewrite app_nil_r. auto.
  - destruct (visitPair_recorded pieces E m u l Hrec Hu) as (m1 & Hv & Hrec1).
    { apply Hincl. left. reflexivity. }
    rewrite Hv. simpl.
    destruct (IH (fun p Hp => Hincl p (or_intror Hp)) _ _ Hrec1)
      as (m2 & Hloop & Hrec2).
    exists m2. rewrite app_assoc. auto.
Qed.

Lemma outerLoop_recorded (pieces : list Piece) (us : list Piece) :
  incl us pieces ->
  forall (E : list Edge) (m : SupportMap),
    recorded pieces E m ->
    exists m',
      forEachM (fun m u => forEachM (visitPair u) pieces m) us m = JS.Done m' /\
      recorded pieces
        (E ++ flat_map (fun u => flat_map (pairEdge u) pieces) us) m'.
Proof.
  induction us as [|u us IH]; intros Hincl E m Hrec; simpl.
  - exists m. rewrite app_nil_r. auto.
  - destruct (innerLoop_recorded pieces u pieces) with (E := E) (m := m)
      as (m1 & Hv & Hrec1); auto.
    { apply Hincl. left. reflexivity. }
    { apply incl_refl. }
    rewrite Hv. simpl.
    destruct (IH (fun p Hp => Hincl p (or_intror Hp)) _ _ Hrec1)
      as (m2 & Hloop & Hrec2).
    exists m2. rewrite app_assoc. auto.
Qed.

Lemma findSupports_recorded (pieces : list Piece) :
  exists m, findSupports pieces (initSupportMap pieces) = JS.Done m /\
            recorded pieces (edgesOf pieces) m.
Proof.
  destruct (outerLoop_recorded pieces pieces (incl_refl _) []
              (initSupportMap pieces) (initSupportMap_recorded pieces))
    as (m & H & Hrec).
  exists m. auto.
Qed.

(** ** The load-distribution loop *)

Lemma sameGraph_refl (n : Node) : sameGraph n n.
Proof. unfold sameGraph. auto. Qed.

Lemma sameGraph_set_load (n : Node) (load stress : Q) :
  sameGraph n (set_load n load stress).
Proof. unfold sameGraph. auto. Qed.

Lemma graphPreserved_refl (m : SupportMap) : graphPreserved m m.
Proof.
  intro k. destruct (JS.get m k); [apply sameGraph_refl | exact I].
Qed.

Lemma graphPreserved_trans (m1 m2 m3 : SupportMap) :
  graphPreserved m1 m2 -> graphPreserved m2 m3 -> graphPreserved m1 m3.
Proof.
  intros H12 H23 k. specialize (H12 k). specialize (H23 k).
  destruct (JS.get m1 k), (JS.get m2 k), (JS.get m3 k); try tauto.
  unfold sameGraph in *. intuition congruence.
Qed.

Lemma graphPreserved_set (m : SupportMap) (k : string) (n : Node)
  (load stress : Q) :
  JS.get m k = Some n ->
  graphPreserved m (JS.set m k (set_load n load stress)).
Proof.
  intros Hget k'. rewrite get_set.
  destruct (String.eqb k' k) eqn:E.
  - apply String.eqb_eq in E. subst k'. rewrite Hget.
    apply sameGraph_set_load.
  - destruct (JS.get m k'); [apply sameGraph_refl | exact I].
Qed.

Lemma graphPreserved_closed (m m' : SupportMap) :
  graphPreserved m m' -> closed m -> closed m'.
Proof.
  intros Hp Hc k n' Hget k' Hin.
  assert (Hk := Hp k). rewrite Hget in Hk.
  destruct (JS.get m k) as [n|] eqn:G; [|contradiction].
  destruct Hk as (_ & Hs & Hb & _). rewrite Hs, Hb in Hin.
  specialize (Hc k n G k' Hin).
  assert (Hk' := Hp k').
  destruct (JS.get m k'); [|congruence].
  destruct (JS.get m' k'); [discriminate | contradiction].
Qed.

Lemma graphPreserved_defined (m m' : SupportMap) (k : string) :
  graphPreserved m m' -> JS.get m k <> None -> JS.get m' k <> None.
Proof.
  intros Hp Hk. specialize (Hp k).
  destruct (JS.get m k); [|congruence].
  destruct (JS.get m' k); [discriminate | contradiction].
Qed.

Lemma supportedWeight_from (m : SupportMap) (ids : list string) (acc : Q) :
  (forall k, In k ids -> JS.get m k <> None) ->
  exists sw,
    forEachM (fun total supportedId =>
                n <- JS.deref m supportedId ;;
                JS.Done (total + JS.or_zero (totalLoad n)))
             ids acc = JS.Done sw.
Proof.
  revert acc. induction ids as [|k ids IH]; intros acc Hall; simpl.
  - exists acc. reflexivity.
  - destruct (JS.get m k) as [n|] eqn:G.
    + rewrite (deref_done _ _ _ G). simpl. apply IH.
      intros k' Hk'. apply Hall. right. exact Hk'.
    + exfalso. apply (Hall k); [left; reflexivity | exact G].
Qed.

Lemma supportedWeight_done (m : SupportMap) (ids : list string) :
  (forall k, In k ids -> JS.get m k <> None) ->
  exists sw, supportedWeight m ids = JS.Done sw.
Proof. apply supportedWeight_from. Qed.

Lemma pending_mono (pr : list string) (k : string) (m : SupportMap) :
  (pending (k :: pr) m <= pending pr m)%nat.
Proof.
  induction m as [|[k0 n0] m IH]; simpl; [lia|].
  destruct (String.eqb k0 k); simpl; [lia|].
  destruct (existsb (String.eqb k0) pr); lia.
Qed.

Lemma pending_set (pr : list string) (k : string) (m : SupportMap)
  (n : Node) (load stress : Q) :
  JS.get m k = Some n ->
  JS.has pr k = false ->
  (pending (k :: pr) (JS.set m k (set_load n load stress))
   + length (supportedBy n) <= pending pr m)%nat.
Proof.
  intros Hget Hhas. induction m as [|[k0 n0] m IH]; simpl in *; [discriminate|].
  destruct (String.eqb k k0) eqn:E.
  - apply String.eqb_eq in E. subst k0. inversion Hget; subst n0.
    simpl. rewrite String.eqb_refl. simpl.
    rewrite Hhas.
    pose proof (pending_mono pr k m). lia.
  - simpl. rewrite (String.eqb_sym k0 k), E. simpl.
    specialize (IH Hget). lia.
Qed.

Lemma filter_length_le {A} (f : A -> bool) (xs : list A) :
  (length (filter f xs) <= length xs)%nat.
Proof.
  induction xs as [|a xs IH]; simpl; [lia|]. destruct (f a); simpl; lia.
Qed.

(** With a budget above the queue length plus the pending entries, the loop
    ends normally on a closed map, and leaves pieces and relations as they
    were. *)
Lemma processQueue_done (fuel : nat) :
  forall (q pr : list string) (m : SupportMap),
    closed m ->
    (forall k, In k q -> JS.get m k <> None) ->
    (length q + pending pr m < fuel)%nat ->
    exists m', processQueue fuel q pr m = JS.Done m' /\ graphPreserved m m'.
Proof.
  induction fuel as [|fuel IH]; intros q pr m Hc Hq Hfuel; [lia|].
  destruct q as [|k rest]; simpl.
  { exists m. split; [reflexivity | apply graphPreserved_refl]. }
  simpl in Hfuel.
  destruct (JS.has pr k) eqn:Hhas.
  { apply IH; [exact Hc | | lia].
    intros k' Hk'. apply Hq. right. exact Hk'. }
  destruct (JS.get m k) as [n|] eqn:G.
  2:{ exfalso. apply (Hq k); [left; reflexivity | exact G]. }
  rewrite (deref_done _ _ _ G). simpl.
  destruct (supportedWeight_done m (supporting n)) as (sw & Hsw).
  { intros k' Hk'. apply (Hc k n G). left. exact Hk'. }
  rewrite Hsw. simpl.
  set (load := calculatePieceWeight (piece n) + sw).
  set (stress := Qmin 1 (load / maxCapacity (piece n))).
  pose proof (graphPreserved_set m k n load stress G) as Hset.
  destruct (IH (rest ++
                filter (fun supportId => negb (JS.has (k :: pr) supportId))
                       (supportedBy n))
               (k :: pr) (JS.set m k (set_load n load stress)))
    as (m' & Hrun & Hpres).
  - exact (graphPreserved_closed _ _ Hset Hc).
  - intros k' Hk'. apply (graphPreserved_defined _ _ _ Hset).
    apply in_app_or in Hk'. destruct Hk' as [Hk' | Hk'].
    + apply Hq. right. exact Hk'.
    + apply filter_In in Hk'. apply (Hc k n G). right. tauto.
  - rewrite length_app.
    pose proof (pending_set pr k m n load stress G Hhas).
    pose proof (filter_length_le
                  (fun supportId => negb (JS.has (k :: pr) supportId))
                  (supportedBy n)).
    lia.
  - exists m'. split; [exact Hrun|].
    exact (graphPreserved_trans _ _ _ Hset Hpres).
Qed.

Lemma supportedWeight_in_budget (m : SupportMap) (ids : list string) :
  supportedWeight m ids <> JS.OutOfFuel.
Proof.
  unfold supportedWeight. generalize 0.
  induction ids as [|k ids IH]; intro acc; simpl; [discriminate|].
  unfold JS.deref. destruct (JS.get m k); simpl; [apply IH | discriminate].
Qed.

(** On any map, closed or not, the loop stays within the budget: it ends
    normally or at a failed lookup. *)
Lemma processQueue_in_budget (fuel : nat) :
  forall (q pr : list string) (m : SupportMap),
    (length q + pending pr m < fuel)%nat ->
    processQueue fuel q pr m <> JS.OutOfFuel.
Proof.
  induction fuel as [|fuel IH]; intros q pr m Hfuel; [lia|].
  destruct q as [|k rest]; simpl; [discriminate|].
  simpl in Hfuel.
  destruct (JS.has pr k) eqn:Hhas; [apply IH; lia|].
  unfold JS.deref.
  destruct (JS.get m k) as [n|] eqn:G; simpl; [|discriminate].
  pose proof (supportedWeight_in_budget m (supporting n)) as Hsw.
  destruct (supportedWeight m (supporting n)) as [sw| |]; simpl;
    [|discriminate|congruence].
  apply IH. rewrite length_app.
  pose proof (pending_set pr k m n (calculatePieceWeight (piece n) + sw)
                (Qmin 1 ((calculatePieceWeight (piece n) + sw)
                         / maxCapacity (piece n))) G Hhas).
  match goal with
  | |- context [filter ?f (supportedBy n)] =>
      pose proof (filter_length_le f (supportedBy n))
  end.
  lia.
Qed.

Lemma calculateLoadDistribution_in_budget (m : SupportMap)
  (pieces : list Piece) :
  calculateLoadDistribution m pieces <> JS.OutOfFuel.
Proof.
  apply processQueue_in_budget. unfold queueBudget. lia.
Qed.

(** An invariant of the map that every finalised node re-establishes holds
    when the loop ends. *)
Lemma processQueue_invariant (P : SupportMap -> Prop) :
  (forall m k n sw,
     P m -> JS.get m k = Some n ->
     supportedWeight m (supporting n) = JS.Done sw ->
     let load := calculatePieceWeight (piece n) + sw in
     P (JS.set m k (set_load n load
                             (Qmin 1 (load / maxCapacity (piece n)))))) ->
  forall fuel q pr m m',
    P m -> processQueue fuel q pr m = JS.Done m' -> P m'.
Proof.
  intros Hstep fuel.
  induction fuel as [|fuel IH]; intros q pr m m' HP Hrun;
    destruct q as [|k rest]; simpl in Hrun; try congruence.
  destruct (JS.has pr k); [eauto|].
  unfold JS.deref in Hrun.
  destruct (JS.get m k) as [n|] eqn:G; simpl in Hrun; [|discriminate].
  destruct (supportedWeight m (supporting n)) as [sw| |] eqn:Hsw;
    simpl in Hrun; try discriminate.
  eapply IH; [|exact Hrun]. apply Hstep; assumption.
Qed.

Lemma recorded_closed (pieces : list Piece) (m : SupportMap) :
  recorded pieces (edgesOf pieces) m -> closed m.
Proof.
  intros (_ & Hall & Hnodes) k n G k' Hin.
  destruct (Hnodes k n G) as (_ & _ & Hs & Hb & _).
  rewrite Hs, Hb, !in_map_iff in Hin.
  destruct Hin as [([l u] & <- & Hin) | ([l u] & <- & Hin)];
    apply filter_In in Hin; destruct Hin as (Hin & _);
    apply in_edgesOf in Hin; apply Hall; tauto.
Qed.

Lemma recorded_topLevel (pieces : list Piece) (E : list Edge)
  (m : SupportMap) :
  recorded pieces E m ->
  forall k, In k (topLevel m) -> JS.get m k <> None.
Proof.
  intros (Hnd & _ & Hnodes) k Hin.
  unfold topLevel in Hin. apply in_map_iff in Hin.
  destruct Hin as (n & <- & Hin). apply filter_In in Hin.
  destruct Hin as (Hin & _). unfold JS.values in Hin.
  apply in_map_iff in Hin. destruct Hin as ([k0 n0] & Hn & Hin).
  simpl in Hn. subst n0.
  pose proof (in_get _ _ _ Hnd Hin) as G.
  destruct (Hnodes _ _ G) as (-> & _). congruence.
Qed.

(** The analysis always returns a map: no lookup fails and the loop ends
    within its budget.  The map has one node per piece id, and each node
    lists exactly the recorded edges at its id. *)
Lemma analyze_graph (pieces : list Piece) :
  exists m,
    analyzeSupportStructure pieces = JS.Done m /\
    (forall p, In p pieces -> JS.get m (id p) <> None) /\
    forall k n, JS.get m k = Some n ->
      id (piece n) = k /\ In (piece n) pieces /\
      supporting n = map (fun e => id (snd e)) (outs k (edgesOf pieces)) /\
      supportedBy n = map (fun e => id (fst e)) (ins k (edgesOf pieces)) /\
      connections n =
        map (fun e => calculateConnectionPoint (fst e) (snd e))
            (outs k (edgesOf pieces)).
Proof.
  destruct (findSupports_recorded pieces) as (m1 & Hfind & Hrec).
  destruct (processQueue_done (queueBudget m1) (topLevel m1) [] m1)
    as (m2 & Hrun & Hpres).
  - exact (recorded_closed _ _ Hrec).
  - exact (recorded_topLevel _ _ _ Hrec).
  - unfold queueBudget. lia.
  - exists m2. split.
    { unfold analyzeSupportStructure. rewrite Hfind. exact Hrun. }
    destruct Hrec as (_ & Hall & Hnodes). split.
    + intros p Hp. apply (graphPreserved_defined _ _ _ Hpres), Hall, Hp.
    + intros k n2 G2. specialize (Hpres k). rewrite G2 in Hpres.
      destruct (JS.get m1 k) as [n1|] eqn:G1; [|contradiction].
      destruct Hpres as (Hp & Hs & Hb & Hcn).
      destruct (Hnodes k n1 G1) as (I1 & I2 & I3 & I4 & I5 & _).
      rewrite Hp, Hs, Hb, Hcn. tauto.
Qed.

(** ** Binary64 rounding and the dyadic grid *)

Lemma two_pow_Z (n : Z) : (0 <= n)%Z -> inject_Z (2 ^ n) == 2 ^ n.
Proof.
  intro H. rewrite Zpower_Qpower by exact H. reflexivity.
Qed.

Lemma two_pow_pos (k : Z) : 0 < 2 ^ k.
Proof. apply Qpower_0_lt. reflexivity. Qed.

Lemma two_pow_add (i j : Z) : 2 ^ (i + j) == 2 ^ i * 2 ^ j.
Proof. apply Qpower_plus. discriminate. Qed.

(** [ilog2] is the binary exponent. *)
Lemma ilog2_spec (q : Q) :
  ~ q == 0 ->
  2 ^ Binary64.ilog2 q <= Qabs q /\ Qabs q < 2 ^ (Binary64.ilog2 q + 1).
Proof.
  intro Hq. unfold Binary64.ilog2.
  destruct q as [n d]. cbn [Qnum Qden].
  assert (Hn : (0 < Z.abs n)%Z).
  { destruct n; try lia. exfalso. apply Hq. reflexivity. }
  set (N := Z.abs n) in *. set (D := Z.pos d).
  assert (HD : (0 < D)%Z) by (unfold D; lia).
  destruct (Z.log2_spec N Hn) as (Na & Nb).
  destruct (Z.log2_spec D HD) as (Da & Db).
  pose proof (Z.log2_nonneg N) as Na0. pose proof (Z.log2_nonneg D) as Da0.
  set (a := Z.log2 N) in *. set (b := Z.log2 D) in *.
  assert (Eabs : Qabs (n # d) == inject_Z N / inject_Z D).
  { unfold Qabs. fold N. rewrite (Qmake_Qdiv N d). reflexivity. }
  assert (HDq : 0 < inject_Z D)
    by (change 0 with (inject_Z 0); rewrite <- Zlt_Qlt; exact HD).
  assert (QNa : 2 ^ a <= inject_Z N)
    by (rewrite <- two_pow_Z by exact Na0; rewrite <- Zle_Qle; exact Na).
  assert (QNb : inject_Z N < 2 ^ (a + 1)).
  { rewrite <- two_pow_Z by lia. rewrite <- Zlt_Qlt.
    replace (a + 1)%Z with (Z.succ a) by lia. exact Nb. }
  assert (QDa : 2 ^ b <= inject_Z D)
    by (rewrite <- two_pow_Z by exact Da0; rewrite <- Zle_Qle; exact Da).
  assert (QDb : inject_Z D < 2 ^ (b + 1)).
  { rewrite <- two_pow_Z by lia. rewrite <- Zlt_Qlt.
    replace (b + 1)%Z with (Z.succ b) by lia. exact Db. }
  assert (Hlow : 2 ^ (a - b - 1) <= Qabs (n # d)).
  { rewrite Eabs. apply Qle_shift_div_l; [exact HDq|].
    apply Qle_trans with (2 ^ (a - b - 1) * 2 ^ (b + 1)).
    - apply Qmult_le_l; [apply two_pow_pos | apply Qlt_le_weak, QDb].
    - rewrite <- two_pow_add.
      replace (a - b - 1 + (b + 1))%Z with a by lia. exact QNa. }
  assert (Hhigh : Qabs (n # d) < 2 ^ (a - b + 1)).
  { rewrite Eabs. apply Qlt_shift_div_r; [exact HDq|].
    apply Qlt_le_trans with (2 ^ (a - b + 1) * 2 ^ b).
    - rewrite <- two_pow_add.
      replace (a - b + 1 + b)%Z with (a + 1)%Z by lia. exact QNb.
    - apply Qmult_le_l; [apply two_pow_pos | exact QDa]. }
  destruct (Qle_bool (2 ^ (a - b)) (Qabs (n # d))) eqn:E.
  - apply Qle_bool_iff in E. split; [exact E | exact Hhigh].
  - split; [exact Hlow|].
    replace (a - b - 1 + 1)%Z with (a - b)%Z by lia.
    apply Qnot_le_lt. intro Hc. apply Qle_bool_iff in Hc. congruence.
Qed.

Lemma RNE_Z (q : Q) (z : Z) : q == inject_Z z -> Binary64.RNE q = z.
Proof.
  intro E. unfold Binary64.RNE.
  assert (Ef : Qfloor q = z) by (rewrite (Qfloor_comp _ _ E); apply Qfloor_Z).
  rewrite Ef.
  assert (Hlt : q - inject_Z z < 1 # 2) by (rewrite E; ring_simplify; reflexivity).
  assert (Hc : Qcompare (q - inject_Z z) (1 # 2) = Lt)
    by (apply Qlt_alt; exact Hlt).
  rewrite Hc. reflexivity.
Qed.

(** A number with a significand below 2^53 is its own rounding: binary64
    operations whose exact result is such a number are exact. *)
Lemma rnd64_exact (q : Q) (n k : Z) :
  q == inject_Z n * 2 ^ k -> (Z.abs n < 2 ^ 53)%Z -> Binary64.rnd64 q == q.
Proof.
  intros E Hn. unfold Binary64.rnd64.
  pose proof (Qred_correct q) as Er.
  set (r := Qred q) in *.
  destruct (Qeq_bool r 0) eqn:E0.
  - apply Qeq_bool_iff in E0. rewrite <- Er, E0. reflexivity.
  - assert (Hr : ~ r == 0) by (intro Hc; apply Qeq_bool_iff in Hc; congruence).
    destruct (ilog2_spec r Hr) as (Hlo & _).
    set (e := Binary64.ilog2 r) in *.
    assert (Habs : Qabs r == inject_Z (Z.abs n) * 2 ^ k).
    { rewrite Er, E, Qabs_Qmult.
      rewrite (Qabs_pos (2 ^ k)) by (apply Qlt_le_weak, two_pow_pos).
      reflexivity. }
    assert (He : (e < 53 + k)%Z).
    { apply (Qpower_lt_compat_l_inv 2); [|reflexivity].
      eapply Qle_lt_trans; [exact Hlo|]. rewrite Habs, two_pow_add.
      apply Qmult_lt_compat_r; [apply two_pow_pos|].
      rewrite <- two_pow_Z by lia. rewrite <- Zlt_Qlt. exact Hn. }
    set (j := (k - e + 52)%Z).
    assert (Hj : (0 <= j)%Z) by (unfold j; lia).
    set (u := 2 ^ (e - 52)).
    assert (Hu : 0 < u) by apply two_pow_pos.
    assert (Ek : 2 ^ k == inject_Z (2 ^ j) * u).
    { rewrite two_pow_Z by exact Hj. unfold u. rewrite <- two_pow_add.
      replace (j + (e - 52))%Z with k by (unfold j; lia). reflexivity. }
    assert (Hdiv : r / u == inject_Z (n * 2 ^ j)).
    { rewrite inject_Z_mult, Er, E, Ek. field. lra. }
    rewrite (RNE_Z _ _ Hdiv), inject_Z_mult, <- Qmult_assoc, <- Ek, <- E.
    reflexivity.
Qed.








(** The double nearest to 0.1, a sum that loses its last bit, and two ties. *)
Lemma rnd64_samples :
  Binary64.rnd64 0.1 == 3602879701896397 # 36028797018963968 /\
  Binary64.rnd64 (10 + (4503599627370497 # 4503599627370496)) == 11 /\
  Binary64.rnd64 (9007199254740993 # 1) == 9007199254740992 # 1 /\
  Binary64.rnd64 (9007199254740995 # 1) == 9007199254740996 # 1.
Proof. vm_compute. repeat split. Qed.

(** Where the binary64 weight leaves the exact one.  The sisal board weighs
    1.3 lb in binary64 (its weight argument comes out just under 13.5) and
    1.4 lb exactly.  The thin house has sides within the editor's limits
    and an inner volume of more than 0.1 lb, yet in binary64 it weighs
    20.3 lb hollow and solid alike: the strict part of "hollow below solid"
    needs a margin above 0.1 lb. *)
Lemma weight64_samples :
  calculatePieceWeight64 sisal_board == Binary64.rnd64 1.3 /\
  calculatePieceWeight sisal_board == 1.4 /\
  0.1 <= innerVolume thin_house * density (materialOf (material thin_house)) /\
  calculatePieceWeight64 (with_hollow thin_house true) == Binary64.rnd64 20.3 /\
  calculatePieceWeight64 (with_hollow thin_house false) == Binary64.rnd64 20.3.
Proof.
  split; [vm_compute; reflexivity|].
  split; [vm_compute; reflexivity|].
  split; [vm_compute; discriminate|].
  split; vm_compute; reflexivity.
Qed.

Lemma rnd64_comp (a b : Q) : a == b -> Binary64.rnd64 a = Binary64.rnd64 b.
Proof.
  intro E. unfold Binary64.rnd64. rewrite (Qred_complete _ _ E). reflexivity.
Qed.

Lemma units_exact (B : Z) (q : Q) :
  units B q -> (B < 2 ^ 53)%Z -> Binary64.rnd64 q == q.
Proof.
  intros (n & E & Hn) HB. apply (rnd64_exact q n (-21)); [exact E | lia].
Qed.

Lemma units_comp (B : Z) (a b : Q) : a == b -> units B a -> units B b.
Proof.
  intros E (n & En & Hn). exists n. split; [rewrite <- E; exact En | exact Hn].
Qed.

Lemma units_plus (B1 B2 : Z) (a b : Q) :
  units B1 a -> units B2 b -> units (B1 + B2) (a + b).
Proof.
  intros (n1 & E1 & H1) (n2 & E2 & H2). exists (n1 + n2)%Z. split.
  - rewrite inject_Z_plus, E1, E2. ring.
  - lia.
Qed.

Lemma units_minus (B1 B2 : Z) (a b : Q) :
  units B1 a -> units B2 b -> units (B1 + B2) (a - b).
Proof.
  intros (n1 & E1 & H1) (n2 & E2 & H2). exists (n1 - n2)%Z. split.
  - unfold Zminus. rewrite inject_Z_plus, inject_Z_opp, E1, E2. ring.
  - lia.
Qed.

Lemma units_max (B : Z) (a b : Q) :
  units B a -> units B b -> units B (Qmax a b).
Proof.
  intros Ha Hb.
  destruct (Q.max_spec a b) as [[_ E] | [_ E]];
    [apply (units_comp B b) | apply (units_comp B a)];
    solve [symmetry; exact E | assumption].
Qed.

Lemma units_min (B : Z) (a b : Q) :
  units B a -> units B b -> units B (Qmin a b).
Proof.
  intros Ha Hb.
  destruct (Q.min_spec a b) as [[_ E] | [_ E]];
    [apply (units_comp B a) | apply (units_comp B b)];
    solve [symmetry; exact E | assumption].
Qed.

(** A dyadic number and its half, in units of 2^-21. *)
Lemma dyadic_units (q : Q) :
  dyadic q = true -> units (2 ^ 51) q /\ units (2 ^ 50) (q / 2).
Proof.
  unfold dyadic. pose proof (Qred_correct q) as Er.
  destruct (Qred q) as [N d]. cbn [Qnum Qden].
  rewrite !andb_true_iff, Z.eqb_eq, !Z.leb_le.
  pose proof (Z.log2_nonneg (Z.pos d)) as Ht.
  set (t := Z.log2 (Z.pos d)) in *.
  intros ((Hd & Ht20) & HN).
  assert (Eq : q == inject_Z N * 2 ^ (- t)).
  { rewrite <- Er, (Qmake_Qdiv N d), Hd, two_pow_Z by exact Ht.
    rewrite Qpower_opp. reflexivity. }
  assert (Hpow : forall s : Z, (0 <= s)%Z ->
            (Z.abs (N * 2 ^ s) <= 2 ^ 30 * (2 ^ t * 2 ^ s))%Z).
  { intros s Hs. rewrite Z.abs_mul, (Z.abs_eq (2 ^ s)) by (apply Z.pow_nonneg; lia).
    rewrite Z.mul_assoc. apply Z.mul_le_mono_nonneg_r; [apply Z.pow_nonneg; lia|].
    rewrite <- Hd. exact HN. }
  split.
  - exists (N * 2 ^ (21 - t))%Z. split.
    + rewrite Eq, inject_Z_mult, two_pow_Z by lia.
      rewrite <- Qmult_assoc, <- two_pow_add.
      replace (21 - t + -21)%Z with (- t)%Z by lia. reflexivity.
    + specialize (Hpow (21 - t)%Z ltac:(lia)).
      rewrite <- Z.pow_add_r in Hpow by lia.
      replace (t + (21 - t))%Z with 21%Z in Hpow by lia.
      change (2 ^ 30 * 2 ^ 21)%Z with (2 ^ 51)%Z in Hpow. exact Hpow.
  - exists (N * 2 ^ (20 - t))%Z. split.
    + rewrite Eq, inject_Z_mult, two_pow_Z by lia.
      unfold Qdiv. rewrite <- !Qmult_assoc.
      apply Qmult_comp; [reflexivity|].
      change (/ 2) with (2 ^ (-1)). rewrite <- !two_pow_add.
      replace (20 - t + -21)%Z with (- t + -1)%Z by lia. reflexivity.
    + specialize (Hpow (20 - t)%Z ltac:(lia)).
      rewrite <- Z.pow_add_r in Hpow by lia.
      replace (t + (20 - t))%Z with 20%Z in Hpow by lia.
      change (2 ^ 30 * 2 ^ 20)%Z with (2 ^ 50)%Z in Hpow. exact Hpow.
Qed.

(** The extents [c - s/2] and [c + s/2] of a piece on the grid are computed
    exactly. *)
Lemma extent64_exact (c s : Q) :
  dyadic c = true -> dyadic s = true ->
  Binary64.sub64 c (Binary64.div64 s 2) == c - s / 2 /\
  Binary64.add64 c (Binary64.div64 s 2) == c + s / 2 /\
  units (3 * 2 ^ 50) (c - s / 2) /\ units (3 * 2 ^ 50) (c + s / 2).
Proof.
  intros Hc Hs.
  destruct (dyadic_units c Hc) as (Uc & _).
  destruct (dyadic_units s Hs) as (_ & Uh).
  assert (Eh : Binary64.div64 s 2 == s / 2)
    by (apply (units_exact _ _ Uh); reflexivity).
  pose proof (units_minus _ _ _ _ Uc Uh) as Um.
  pose proof (units_plus _ _ _ _ Uc Uh) as Up.
  change (2 ^ 51 + 2 ^ 50)%Z with (3 * 2 ^ 50)%Z in Um, Up.
  split; [|split; [|split; assumption]].
  - unfold Binary64.sub64.
    rewrite (rnd64_comp _ (c - s / 2)) by (rewrite Eh; reflexivity).
    apply (units_exact _ _ Um). reflexivity.
  - unfold Binary64.add64.
    rewrite (rnd64_comp _ (c + s / 2)) by (rewrite Eh; reflexivity).
    apply (units_exact _ _ Up). reflexivity.
Qed.

Lemma calculateOverlap64_exact (a1 b1 a2 b2 a1' b1' a2' b2' : Q) :
  a1 == a1' -> b1 == b1' -> a2 == a2' -> b2 == b2' ->
  units (3 * 2 ^ 50) a1' -> units (3 * 2 ^ 50) b1' ->
  units (3 * 2 ^ 50) a2' -> units (3 * 2 ^ 50) b2' ->
  calculateOverlap64 a1 b1 a2 b2 == calculateOverlap a1' b1' a2' b2'.
Proof.
  intros Ea1 Eb1 Ea2 Eb2 Ua1 Ub1 Ua2 Ub2.
  unfold calculateOverlap64, calculateOverlap, Binary64.sub64.
  rewrite (rnd64_comp _ (Qmin b1' b2' - Qmax a1' a2'))
    by (rewrite Ea1, Eb1, Ea2, Eb2; reflexivity).
  rewrite (units_exact (3 * 2 ^ 50 + 3 * 2 ^ 50));
    [reflexivity | | reflexivity].
  apply units_minus; [apply units_min | apply units_max]; assumption.
Qed.

Lemma gtb_comp (a a' b : Q) : a == a' -> JS.gtb a b = JS.gtb a' b.
Proof.
  intro E. destruct (JS.gtb a b) eqn:H; symmetry.
  - apply gtb_gt. apply gtb_gt in H. rewrite <- E. exact H.
  - apply gtb_le. apply gtb_le in H. rewrite <- E. exact H.
Qed.

Lemma geb_comp (a a' b : Q) : a == a' -> JS.geb a b = JS.geb a' b.
Proof.
  intro E. unfold JS.geb.
  destruct (Qle_bool b a) eqn:H; symmetry.
  - apply Qle_bool_iff. apply Qle_bool_iff in H. rewrite <- E. exact H.
  - destruct (Qle_bool b a') eqn:H'; [|reflexivity].
    apply Qle_bool_iff in H'. rewrite <- E in H'.
    apply Qle_bool_iff in H'. congruence.
Qed.

(** On the grid the binary64 support test is the exact one. *)
Lemma isSupporting64_exact (l u : Piece) :
  onGrid l = true -> onGrid u = true ->
  isSupporting64 l u = isSupporting l u.
Proof.
  unfold onGrid. rewrite !andb_true_iff.
  intros (((((Lx & Ly) & Lz) & Lw) & Lh) & Ld)
         (((((Ux & Uy) & Uz) & Uw) & Uh) & Ud).
  destruct (extent64_exact _ _ Lx Lw) as (LX1 & LX2 & LX3 & LX4).
  destruct (extent64_exact _ _ Ux Uw) as (UX1 & UX2 & UX3 & UX4).
  destruct (extent64_exact _ _ Lz Ld) as (LZ1 & LZ2 & LZ3 & LZ4).
  destruct (extent64_exact _ _ Uz Ud) as (UZ1 & UZ2 & UZ3 & UZ4).
  destruct (dyadic_units _ Ly) as (ULy & _).
  destruct (dyadic_units _ Lh) as (ULh & _).
  destruct (dyadic_units _ Uy) as (UUy & _).
  pose proof (units_plus _ _ _ _ ULy ULh) as Utop.
  assert (Etop : Binary64.add64 (y l) (height l) == y l + height l)
    by (apply (units_exact _ _ Utop); reflexivity).
  pose proof (units_minus _ _ _ _ Utop UUy) as Ugap.
  assert (Egap : Binary64.sub64 (Binary64.add64 (y l) (height l)) (y u)
                 == y l + height l - y u).
  { unfold Binary64.sub64.
    rewrite (rnd64_comp _ (y l + height l - y u)) by (rewrite Etop; reflexivity).
    apply (units_exact _ _ Ugap). reflexivity. }
  unfold isSupporting64, isSupporting, overlapX, overlapZ.
  rewrite (gtb_comp _ _ 1 (Qabs_wd _ _ Egap)).
  rewrite (geb_comp _ _ 2
             (calculateOverlap64_exact _ _ _ _ _ _ _ _
                LX1 LX2 UX1 UX2 LX3 LX4 UX3 UX4)).
  rewrite (geb_comp _ _ 2
             (calculateOverlap64_exact _ _ _ _ _ _ _ _
                LZ1 LZ2 UZ1 UZ2 LZ3 LZ4 UZ3 UZ4)).
  reflexivity.
Qed.







(** ** The support relation of the analysed map *)

Lemma NoDup_map_inj {A B} (f : A -> B) (xs : list A) (a b : A) :
  NoDup (map f xs) -> In a xs -> In b xs -> f a = f b -> a = b.
Proof.
  induction xs as [|c xs IH]; simpl; intros Hnd Ha Hb Hf; [contradiction|].
  inversion Hnd as [|? ? Hnotin Hnd']; subst.
  destruct Ha as [->|Ha], Hb as [->|Hb]; auto.
  - exfalso. apply Hnotin. rewrite Hf. apply in_map, Hb.
  - exfalso. apply Hnotin. rewrite <- Hf. apply in_map, Ha.
Qed.

Lemma in_outs (k : string) (E : list Edge) (e : Edge) :
  In e (outs k E) <-> In e E /\ id (fst e) = k.
Proof. unfold outs. rewrite filter_In, String.eqb_eq. tauto. Qed.

Lemma in_ins (k : string) (E : list Edge) (e : Edge) :
  In e (ins k E) <-> In e E /\ id (snd e) = k.
Proof. unfold ins. rewrite filter_In, String.eqb_eq. tauto. Qed.



Lemma tower_ids_unique : NoDup (map id tower).
Proof.
  repeat constructor; simpl; intuition discriminate.
Qed.




(** C8. The analysis returns a map in which no node lists its own id in
    [supporting] or [supportedBy], every id listed in [supporting] or
    [supportedBy] has a node that lists the lister back in the opposite
    relation, and so, for any two nodes A and B, A's [supporting] contains B
    exactly when B's [supportedBy] contains A.  This holds for every piece
    list, with unique ids in particular. *)
Theorem support_symmetry (pieces : list Piece) :
  exists m : SupportMap,
    analyzeSupportStructure pieces = JS.Done m /\
    forall (a : string) (na : Node), JS.get m a = Some na ->
      ~ In a (supporting na) /\ ~ In a (supportedBy na) /\
      forall b : string,
        (In b (supporting na) ->
           exists nb, JS.get m b = Some nb /\ In a (supportedBy nb)) /\
        (In b (supportedBy na) ->
           exists nb, JS.get m b = Some nb /\ In a (supporting nb)) /\
        (forall nb, JS.get m b = Some nb ->
           (In b (supporting na) <-> In a (supportedBy nb))).
Proof.
  destruct (analyze_graph pieces) as (m & Hrun & Hall & Hnodes).
  exists m. split; [exact Hrun|].
  assert (Hout : forall a na b, JS.get m a = Some na ->
            (In b (supporting na) <->
             exists l u, In (l, u) (edgesOf pieces) /\ id l = a /\ id u = b)).
  { intros a na b G. destruct (Hnodes _ _ G) as (_ & _ & -> & _).
    rewrite in_map_iff. split.
    - intros ([l u] & He & Hin). apply in_outs in Hin. exists l, u. tauto.
    - intros (l & u & Hin & Hl & Hu). exists (l, u). rewrite in_outs. tauto. }
  assert (Hin : forall a na b, JS.get m a = Some na ->
            (In b (supportedBy na) <->
             exists l u, In (l, u) (edgesOf pieces) /\ id l = b /\ id u = a)).
  { intros a na b G. destruct (Hnodes _ _ G) as (_ & _ & _ & -> & _).
    rewrite in_map_iff. split.
    - intros ([l u] & He & Hin). apply in_ins in Hin. exists l, u. tauto.
    - intros (l & u & Hin & Hl & Hu). exists (l, u). rewrite in_ins. tauto. }
  assert (Hnode : forall p, In p pieces -> exists n, JS.get m (id p) = Some n).
  { intros p Hp. specialize (Hall p Hp).
    destruct (JS.get m (id p)) as [n|]; [exists n; reflexivity | congruence]. }
  intros a na Ga. split; [|split].
  - rewrite (Hout a na a Ga). intros (l & u & He & Hl & Hu).
    apply in_edgesOf in He. destruct He as (_ & _ & Hne & _). congruence.
  - rewrite (Hin a na a Ga). intros (l & u & He & Hl & Hu).
    apply in_edgesOf in He. destruct He as (_ & _ & Hne & _). congruence.
  - intro b. split; [|split].
    + intro Hb. apply (Hout a na b Ga) in Hb.
      destruct Hb as (l & u & He & Hl & Hu).
      assert (Hu' : In u pieces) by (apply in_edgesOf in He; tauto).
      destruct (Hnode u Hu') as (nb & Gb). rewrite Hu in Gb.
      exists nb. split; [exact Gb|].
      apply (Hin b nb a Gb). exists l, u. auto.
    + intro Hb. apply (Hin a na b Ga) in Hb.
      destruct Hb as (l & u & He & Hl & Hu).
      assert (Hl' : In l pieces) by (apply in_edgesOf in He; tauto).
      destruct (Hnode l Hl') as (nb & Gb). rewrite Hl in Gb.
      exists nb. split; [exact Gb|].
      apply (Hout b nb a Gb). exists l, u. auto.
    + intros nb Gb. rewrite (Hout a na b Ga), (Hin b nb a Gb). reflexivity.
Qed.

Lemma support_symmetry_witness :
  exists m : SupportMap,
    analyzeSupportStructure tower = JS.Done m /\
    forall (a : string) (na : Node), JS.get m a = Some na ->
      ~ In a (supporting na) /\ ~ In a (supportedBy na) /\
      forall b : string,
        (In b (supporting na) ->
           exists nb, JS.get m b = Some nb /\ In a (supportedBy nb)) /\
        (In b (supportedBy na) ->
           exists nb, JS.get m b = Some nb /\ In a (supporting nb)) /\
        (forall nb, JS.get m b = Some nb ->
           (In b (supporting na) <-> In a (supportedBy nb))).
Proof. exact (support_symmetry tower). Defined.

(** ** Bounds on the stress level *)

Lemma Qplus_nonneg (a b : Q) : 0 <= a -> 0 <= b -> 0 <= a + b.
Proof. intros. lra. Qed.

Lemma or_zero_nonneg (v : Q) : 0 <= v -> 0 <= JS.or_zero v.
Proof.
  intro H. unfold JS.or_zero. destruct (Qeq_bool v 0); [apply Qle_refl | exact H].
Qed.

Lemma supportedWeight_nonneg (m : SupportMap) (ids : list string) (sw : Q) :
  (forall k n, JS.get m k = Some n -> 0 <= totalLoad n) ->
  supportedWeight m ids = JS.Done sw -> 0 <= sw.
Proof.
  intro Hload. unfold supportedWeight.
  assert (Hgen : forall acc, 0 <= acc ->
            forEachM (fun total supportedId =>
                        n <- JS.deref m supportedId ;;
                        JS.Done (total + JS.or_zero (totalLoad n)))
                     ids acc = JS.Done sw -> 0 <= sw).
  { induction ids as [|k ids IH]; simpl; intros acc Hacc Hrun.
    - inversion Hrun; subst. exact Hacc.
    - unfold JS.deref in Hrun.
      destruct (JS.get m k) as [n|] eqn:G; simpl in Hrun; [|discriminate].
      apply (IH _ (Qplus_nonneg acc (JS.or_zero (totalLoad n)) Hacc
                     (or_zero_nonneg _ (Hload _ _ G))) Hrun). }
  apply Hgen, Qle_refl.
Qed.

(** The stress level never exceeds 1 (for a zero footprint the source
    divides by zero, which the model does not follow). *)
Lemma stress_at_most_one (pieces : list Piece) :
  exists m, analyzeSupportStructure pieces = JS.Done m /\
            forall k n, JS.get m k = Some n -> stressLevel n <= 1.
Proof.
  destruct (analyze_graph pieces) as (m & Hrun & _).
  exists m. split; [exact Hrun|].
  unfold analyzeSupportStructure in Hrun.
  destruct (findSupports_recorded pieces) as (m1 & Hfind & Hrec).
  rewrite Hfind in Hrun. simpl in Hrun.
  eapply (processQueue_invariant
            (fun m => forall k n, JS.get m k = Some n -> stressLevel n <= 1));
    [ | | exact Hrun].
  - intros m0 k0 n0 sw HP G _ load k n. rewrite get_set.
    destruct (String.eqb k k0); [|apply HP].
    intro H. inversion H; subst n. simpl. apply Q.le_min_l.
  - intros k n G. destruct Hrec as (_ & _ & Hnodes).
    destruct (Hnodes k n G) as (_ & _ & _ & _ & _ & _ & ->). discriminate.
Qed.


Lemma volume_nonneg (p : Piece) :
  0 <= width p -> 0 <= height p -> 0 <= depth p ->
  (hollow p = true ->
   0.75 <= width p /\ 0.75 <= height p /\ 0.75 <= depth p) ->
  0 <= pieceVolume p.
Proof.
  intros Hw Hh Hd Hhollow.
  destruct (hollow p) eqn:E.
  - destruct (Hhollow eq_refl) as (H1 & H2 & H3).
    apply (hollow_volume_from_wall p E H1 H2 H3).
  - unfold pieceVolume. rewrite E.
    destruct (String.eqb (shape p) "cylinder").
    + unfold JS.Math_pow2.
      assert (0 <= width p / 2) by (apply Qle_shift_div_l; lra).
      apply Qmult_le_0_compat; [|assumption].
      apply Qmult_le_0_compat; [discriminate|].
      apply Qmult_le_0_compat; assumption.
    + repeat apply Qmult_le_0_compat; assumption.
Qed.



(** ** The cat weight test *)

Lemma forEachM_invariant {A S} (body : S -> A -> JS.outcome S)
  (P : S -> Prop) (xs : list A) :
  (forall s a s', In a xs -> P s -> body s a = JS.Done s' -> P s') ->
  forall s s', P s -> forEachM body xs s = JS.Done s' -> P s'.
Proof.
  induction xs as [|a xs IH]; simpl; intros Hstep s s' HP Hrun.
  - inversion Hrun; subst. exact HP.
  - destruct (body s a) as [s1| |] eqn:Hb; simpl in Hrun; try discriminate.
    apply (IH (fun s0 a0 s0' Hin => Hstep s0 a0 s0' (or_intror Hin)) s1 s');
      [|exact Hrun].
    apply (Hstep s a s1); auto.
Qed.


(** The entry written for a spot says it can hold the cat exactly when its
    load with the heaviest cat is strictly below half its capacity. *)
Lemma testSpot_canHoldCat (m : SupportMap) (c : Q) (r : Results)
  (spot : Piece) (node : Node) :
  JS.get m (id spot) = Some node ->
  safetyFactor r = 2 ->
  exists r' e,
    testSpot m (Some c) r spot = JS.Done r' /\
    JS.get (catDistribution r') (id spot) = Some e /\
    currentLoad e = totalLoad node /\
    (canHoldCat e = true <-> totalLoad node + c < halfCapacity spot) /\
    maxCatWeight e = Qmax 0 (halfCapacity spot - totalLoad node).
Proof.
  intros G Hsf. unfold testSpot. rewrite (deref_done _ _ _ G). simpl.
  eexists. eexists. split; [reflexivity|]. simpl.
  split; [apply get_set_same|]. simpl. rewrite Hsf.
  split; [reflexivity|]. split; [apply ltb_lt | reflexivity].
Qed.


(** The analysis returns a map for every piece list. *)
Lemma analyzeSupportStructure_total (pieces : list Piece) :
  exists m, analyzeSupportStructure pieces = JS.Done m.
Proof.
  destruct (analyze_graph pieces) as (m & Hrun & _). exists m. exact Hrun.
Qed.

(** ** Acyclic maps *)

Lemma reaches_rises (m : SupportMap) (a b : string) :
  risesAlongEdges m = true ->
  reaches m a b ->
  exists na nb, JS.get m a = Some na /\ JS.get m b = Some nb /\
                y (piece na) < y (piece nb).
Proof.
  intros Hrise Hreach. induction Hreach as [a b n G Hin | a b c _ IH1 _ IH2].
  - unfold risesAlongEdges in Hrise. rewrite forallb_forall in Hrise.
    assert (Hn : In n (JS.values m)).
    { unfold JS.values. apply in_map_iff. exists (a, n).
      split; [reflexivity | apply get_in, G]. }
    specialize (Hrise n Hn). rewrite forallb_forall in Hrise.
    specialize (Hrise b Hin).
    destruct (JS.get m b) as [nb|]; [|discriminate].
    exists n, nb. rewrite ltb_lt in Hrise. auto.
  - destruct IH1 as (na & nb & Ga & Gb & Hab).
    destruct IH2 as (nb' & nc & Gb' & Gc & Hbc).
    rewrite Gb in Gb'. inversion Gb'; subst nb'.
    exists na, nc. split; [exact Ga|]. split; [exact Gc|].
    exact (Qlt_trans _ _ _ Hab Hbc).
Qed.

Lemma rises_acyclic (m : SupportMap) :
  risesAlongEdges m = true -> acyclic m.
Proof.
  intros Hrise a Hreach.
  destruct (reaches_rises m a a Hrise Hreach) as (na & nb & Ga & Gb & Hlt).
  rewrite Ga in Gb. inversion Gb; subst nb.
  exact (Qlt_irrefl _ Hlt).
Qed.

(** ** The analysis on the sample designs *)

(** C1, at the failing input.  In the tower the crate is the only top-level
    piece; once it is processed it enqueues the post before the shelf, so
    the post is finalised while the shelf, which it supports, still has load
    0.  Every support edge goes to a piece whose bottom is strictly higher,
    so the graph has no cycle; yet the post ends with totalLoad 54, not its
    own 36 lb plus the loads 21.6 and 18 of the two pieces it supports. *)
Theorem tower_load_not_conserved :
  exists (m : SupportMap) (n : Node),
    analyzeSupportStructure tower = JS.Done m /\
    acyclic m /\
    JS.get m "post-1" = Some n /\
    supporting n = ["shelf-2"; "crate-3"]%string /\
    calculatePieceWeight (piece n) == 36 /\
    loadOf m "shelf-2" == 21.6 /\
    loadOf m "crate-3" == 18 /\
    totalLoad n == 54 /\
    ~ totalLoad n == calculatePieceWeight (piece n) + sumLoads m (supporting n).
Proof.
  eexists. eexists.
  split; [vm_compute; reflexivity|].
  split; [apply rises_acyclic; vm_compute; reflexivity|].
  split; [vm_compute; reflexivity|].
  repeat split; try (vm_compute; reflexivity).
  vm_compute. discriminate.
Qed.


(** C3, at the failing input.  A fabric perch 1 x 1 x 1 has load 0 and
    capacity 30; with the default 15 lb cat the load with the cat equals
    capacity / 2.  The entry says the perch cannot hold the cat ([<] fails),
    but no weak point is recorded and the test passes ([>] fails too). *)
Theorem perch_boundary_inconsistent :
  exists (m : SupportMap) (r : Results) (e : CatSpot),
    analyzeSupportStructure [perch] = JS.Done m /\
    testCatWeights [perch] [15] m = JS.Done r /\
    isRestingSpot perch = true /\
    loadOf m "perch-1" + 15 == baseCapacity fabric * width perch * depth perch / 2 /\
    JS.get (catDistribution r) "perch-1" = Some e /\
    canHoldCat e = false /\
    weakPoints r = [] /\
    passed r = true.
Proof.
  eexists. eexists. eexists.
  split; [vm_compute; reflexivity|].
  split; [vm_compute; reflexivity|].
  split; [vm_compute; reflexivity|].
  split; [vm_compute; reflexivity|].
  split; [vm_compute; reflexivity|].
  repeat split.
Qed.

(** C4, at the failing input.  The cushion platform has capacity 320 and
    carries the 345.6 lb block; the weak point recorded for it has
    currentCapacity round(160 - 345.6) = -186, while the entry of the same
    spot floors the same headroom at 0. *)
Theorem pad_negative_currentCapacity :
  exists (m : SupportMap) (r : Results) (wp : WeakPoint) (e : CatSpot),
    analyzeSupportStructure [pad; block] = JS.Done m /\
    testCatWeights [pad; block] [15] m = JS.Done r /\
    weakPoints r = [wp] /\
    wp_pieceId wp = "platform-1"%string /\
    currentCapacity wp == -186 /\
    currentCapacity wp < 0 /\
    JS.get (catDistribution r) "platform-1" = Some e /\
    maxCatWeight e == 0.
Proof.
  eexists. eexists. eexists. eexists.
  split; [vm_compute; reflexivity|].
  split; [vm_compute; reflexivity|].
  split; [vm_compute; reflexivity|].
  split; [vm_compute; reflexivity|].
  split; [vm_compute; reflexivity|].
  split; [vm_compute; reflexivity|].
  split; vm_compute; reflexivity.
Qed.

(** * Further properties of the engine *)

(** ** Weights *)

(** Enlarging a solid piece in any dimension never lowers its weight:
    for two solid pieces of one shape and material (not an inherited
    property name) with non-negative dimensions, the one that is no larger
    in width, height and depth weighs no more. *)
Theorem solid_weight_monotone (p q : Piece) :
  JS.inherited (material p) = false ->
  hollow p = false -> hollow q = false ->
  shape p = shape q -> material p = material q ->
  0 <= width p -> width p <= width q ->
  0 <= height p -> height p <= height q ->
  0 <= depth p -> depth p <= depth q ->
  calculatePieceWeight p <= calculatePieceWeight q.
Proof.
  intros _ Hp Hq Hs Hm Hw0 Hw Hh0 Hh Hd0 Hd.
  apply weight_mono; [exact Hm|].
  unfold pieceVolume. rewrite Hp, Hq, Hs.
  destruct (String.eqb (shape q) "cylinder").
  - unfold JS.Math_pow2.
    apply Qmult_le_mono; [|  | exact Hh0 | exact Hh].
    + apply Qmult_le_0_compat; [discriminate|].
      apply Qmult_le_0_compat; apply Qle_shift_div_l; lra.
    + apply Qmult_le_l; [reflexivity|].
      assert (Hhalf : forall v, 0 <= v -> 0 <= v / 2).
      { intros v Hv. apply Qle_shift_div_l; lra. }
      assert (Hmono : width p / 2 <= width q / 2).
      { apply Qmult_le_compat_r; [exact Hw | discriminate]. }
      apply Qmult_le_mono; auto.
  - apply Qmult_le_mono; [| | exact Hd0 | exact Hd].
    + apply Qmult_le_0_compat; assumption.
    + apply Qmult_le_mono; assumption.
Qed.

Lemma solid_weight_monotone_witness :
  calculatePieceWeight plank <= calculatePieceWeight plank_wide.
Proof.
  apply solid_weight_monotone; try reflexivity; vm_compute; discriminate.
Defined.

(** ** Overlaps and the support rule *)

Lemma calculateOverlap_le (min1 max1 min2 max2 : Q) :
  calculateOverlap min1 max1 min2 max2 <= Qmax 0 (max1 - min1) /\
  calculateOverlap min1 max1 min2 max2 <= Qmax 0 (max2 - min2).
Proof.
  unfold calculateOverlap. split; split_minmax; lra.
Qed.

(** The overlap of two ranges does not depend on their order, is never
    negative, is at most the length of either range, is 0 when the ranges
    only touch or lie apart, and is the length of the first range when the
    second contains it. *)
Theorem calculateOverlap_facts (min1 max1 min2 max2 : Q) :
  calculateOverlap min1 max1 min2 max2 == calculateOverlap min2 max2 min1 max1 /\
  0 <= calculateOverlap min1 max1 min2 max2 /\
  calculateOverlap min1 max1 min2 max2 <= Qmax 0 (max1 - min1) /\
  calculateOverlap min1 max1 min2 max2 <= Qmax 0 (max2 - min2) /\
  (max1 <= min2 \/ max2 <= min1 -> calculateOverlap min1 max1 min2 max2 == 0) /\
  (min2 <= min1 -> min1 <= max1 -> max1 <= max2 ->
   calculateOverlap min1 max1 min2 max2 == max1 - min1).
Proof.
  unfold calculateOverlap.
  split; [|split; [|split; [|split; [|split]]]].
  - split_minmax; lra.
  - apply Q.le_max_l.
  - split_minmax; lra.
  - split_minmax; lra.
  - intros [H | H]; split_minmax; lra.
  - intros H1 H2 H3. split_minmax; lra.
Qed.

Lemma calculateOverlap_facts_witness :
  calculateOverlap 0 4 6 9 == 0 /\ calculateOverlap 2 5 0 9 == 5 - 2.
Proof.
  destruct (calculateOverlap_facts 0 4 6 9) as (_ & _ & _ & _ & Hapart & _).
  destruct (calculateOverlap_facts 2 5 0 9) as (_ & _ & _ & _ & _ & Hin).
  split.
  - apply Hapart. left. vm_compute. discriminate.
  - apply Hin; vm_compute; discriminate.
Defined.

Lemma overlapX_le_width (l u : Piece) :
  overlapX l u <= Qmax 0 (width l) /\ overlapX l u <= Qmax 0 (width u).
Proof.
  unfold overlapX.
  destruct (calculateOverlap_le
              (x l - width l / 2) (x l + width l / 2)
              (x u - width u / 2) (x u + width u / 2))
    as (H1 & H2).
  assert (El : x l + width l / 2 - (x l - width l / 2) == width l) by field.
  assert (Eu : x u + width u / 2 - (x u - width u / 2) == width u) by field.
  rewrite El in H1. rewrite Eu in H2. auto.
Qed.

Lemma overlapZ_le_depth (l u : Piece) :
  overlapZ l u <= Qmax 0 (depth l) /\ overlapZ l u <= Qmax 0 (depth u).
Proof.
  unfold overlapZ.
  destruct (calculateOverlap_le
              (z l - depth l / 2) (z l + depth l / 2)
              (z u - depth u / 2) (z u + depth u / 2))
    as (H1 & H2).
  assert (El : z l + depth l / 2 - (z l - depth l / 2) == depth l) by field.
  assert (Eu : z u + depth u / 2 - (z u - depth u / 2) == depth u) by field.
  rewrite El in H1. rewrite Eu in H2. auto.
Qed.

Lemma isSupporting_overlaps (l u : Piece) :
  isSupporting l u = true ->
  Qabs (y l + height l - y u) <= 1 /\ 2 <= overlapX l u /\ 2 <= overlapZ l u.
Proof.
  intro H. apply isSupporting_rule in H. exact H.
Qed.

Lemma Qmax0_ge (a b : Q) : 0 < a -> a <= Qmax 0 b -> a <= b.
Proof. intros Ha H. split_minmax; lra. Qed.

(** On the dyadic grid, where the binary64 sums of the test are exact, a
    piece supports another only if both are at least 2 inches wide and
    2 inches deep: a piece thinner than that in width or depth is never part
    of a support edge, on either side. *)
Theorem isSupporting_needs_two_inches (l u : Piece) :
  onGrid l = true -> onGrid u = true ->
  isSupporting64 l u = true ->
  2 <= width l /\ 2 <= depth l /\ 2 <= width u /\ 2 <= depth u.
Proof.
  intros Gl Gu H. rewrite (isSupporting64_exact l u Gl Gu) in H.
  destruct (isSupporting_overlaps l u H) as (_ & Hx & Hz).
  destruct (overlapX_le_width l u) as (Hxl & Hxu).
  destruct (overlapZ_le_depth l u) as (Hzl & Hzu).
  repeat split; apply Qmax0_ge; try reflexivity; lra.
Qed.

Lemma isSupporting_needs_two_inches_witness :
  2 <= width post /\ 2 <= depth post /\ 2 <= width shelf /\ 2 <= depth shelf.
Proof.
  apply isSupporting_needs_two_inches; reflexivity.
Defined.

Lemma support_gap (l u : Piece) :
  isSupporting l u = true ->
  y l + height l - 1 <= y u /\ y u <= y l + height l + 1.
Proof.
  intro H. destruct (isSupporting_overlaps l u H) as (Habs & _).
  apply Qabs_Qle_condition in Habs. split; lra.
Qed.

(** On the dyadic grid, where the binary64 sums of the test are exact, the
    bottom of the upper piece of a support edge lies within 1 inch of the
    top of the lower piece; so a lower piece more than 1 inch high is
    strictly below what it supports, and two pieces that support each other
    are together at most 2 inches high. *)
Theorem isSupporting_heights (l u : Piece) :
  onGrid l = true -> onGrid u = true ->
  isSupporting64 l u = true ->
  y l + height l - 1 <= y u /\ y u <= y l + height l + 1 /\
  (1 < height l -> y l < y u) /\
  (isSupporting64 u l = true -> height l + height u <= 2).
Proof.
  intros Gl Gu H. rewrite (isSupporting64_exact l u Gl Gu) in H.
  destruct (support_gap l u H) as (Hlo & Hhi).
  split; [exact Hlo|]. split; [exact Hhi|]. split; [intro; lra|].
  intro H'. rewrite (isSupporting64_exact u l Gu Gl) in H'.
  destruct (support_gap u l H') as (Hlo' & Hhi'). lra.
Qed.

Lemma isSupporting_heights_witness :
  y post + height post - 1 <= y crate /\ y crate <= y post + height post + 1 /\
  (1 < height post -> y post < y crate) /\
  (isSupporting64 crate post = true -> height post + height crate <= 2).
Proof.
  apply isSupporting_heights; reflexivity.
Defined.

(** ** Contact records *)

Lemma suggestConnection_from_four (a : Q) (u : Piece) :
  4 <= a ->
  suggestConnection a u <> metal_plate /\
  suggestConnection a u <> none /\
  suggestConnection a u <> bolts /\
  2 <= cost (connectionTypes (suggestConnection a u)) /\
  cost (connectionTypes (suggestConnection a u)) <= 12.
Proof.
  intro Ha. unfold suggestConnection.
  rewrite (proj2 (ltb_ge a 4) Ha).
  destruct (JS.ltb a 16), (JS.gtb (calculatePieceWeight u) 15),
    (JS.gtb (calculatePieceWeight u) 10); simpl;
    repeat split; discriminate.
Qed.

Lemma contact_area (l u : Piece) :
  isSupporting l u = true -> 4 <= area (calculateConnectionPoint l u).
Proof.
  intro H. destruct (isSupporting_overlaps l u H) as (_ & Hx & Hz).
  simpl. change 4 with (2 * 2).
  apply Qmult_le_mono; assumption || discriminate.
Qed.

(** The contact record of a supporting pair has an overlap area of at least
    4 square inches, sits at the top of the lower piece, and its centre lies
    inside the footprints of both pieces.  With such an area the small-overlap
    tier is never taken: the suggestion is never a metal plate (nor "none"
    or bolts), and its hardware costs between 2 and 12. *)
Theorem contact_of_support (l u : Piece) :
  isSupporting l u = true ->
  let c := calculateConnectionPoint l u in
  4 <= area c /\
  conn_y c = y l + height l /\
  (x l - width l / 2 <= conn_x c <= x l + width l / 2) /\
  (x u - width u / 2 <= conn_x c <= x u + width u / 2) /\
  (z l - depth l / 2 <= conn_z c <= z l + depth l / 2) /\
  (z u - depth u / 2 <= conn_z c <= z u + depth u / 2) /\
  suggestedConnection c <> metal_plate /\
  suggestedConnection c <> none /\
  suggestedConnection c <> bolts /\
  2 <= cost (connectionTypes (suggestedConnection c)) <= 12.
Proof.
  intros H c. destruct (isSupporting_overlaps l u H) as (_ & Hx & Hz).
  pose proof (contact_area l u H) as Harea. fold c in Harea.
  destruct (suggestConnection_from_four (area c) u Harea)
    as (S1 & S2 & S3 & S4 & S5).
  assert (Hcentre : forall lo1 hi1 lo2 hi2 : Q,
            2 <= calculateOverlap lo1 hi1 lo2 hi2 ->
            let mid := (Qmax lo1 lo2 + Qmin hi1 hi2) / 2 in
            (lo1 <= mid <= hi1) /\ (lo2 <= mid <= hi2)).
  { intros lo1 hi1 lo2 hi2 Hov mid.
    assert (E : mid * 2 == Qmax lo1 lo2 + Qmin hi1 hi2)
      by (unfold mid; field).
    unfold calculateOverlap in Hov. clearbody mid.
    split_minmax; lra. }
  destruct (Hcentre _ _ _ _ Hx) as (Xl & Xu).
  destruct (Hcentre _ _ _ _ Hz) as (Zl & Zu).
  split; [exact Harea|]. split; [reflexivity|].
  split; [exact Xl|]. split; [exact Xu|].
  split; [exact Zl|]. split; [exact Zu|].
  split; [exact S1|]. split; [exact S2|]. split; [exact S3|].
  split; [exact S4 | exact S5].
Qed.

Lemma contact_of_support_witness :
  4 <= area (calculateConnectionPoint post shelf) /\
  suggestedConnection (calculateConnectionPoint post shelf) <> metal_plate.
Proof.
  destruct (contact_of_support post shelf eq_refl)
    as (Ha & _ & _ & _ & _ & _ & Hs & _).
  split; [exact Ha | exact Hs].
Defined.

(** In the map the analysis returns, the contact records of a node run
    parallel to its [supporting] list: the i-th record names the node as the
    lower piece and the i-th supported id as the upper piece; and every
    record has an area of at least 4 with a suggestion other than a metal
    plate. *)
Theorem connections_parallel (pieces : list Piece) :
  exists m : SupportMap,
    analyzeSupportStructure pieces = JS.Done m /\
    forall (k : string) (n : Node), JS.get m k = Some n ->
      map upperPieceId (connections n) = supporting n /\
      length (connections n) = length (supporting n) /\
      forall c : Connection, In c (connections n) ->
        lowerPieceId c = k /\ 4 <= area c /\
        suggestedConnection c <> metal_plate /\
        2 <= cost (connectionTypes (suggestedConnection c)) <= 12.
Proof.
  destruct (analyze_graph pieces) as (m & Hrun & _ & Hnodes).
  exists m. split; [exact Hrun|].
  intros k n G. destruct (Hnodes k n G) as (_ & _ & Hs & _ & Hc).
  assert (Hpar : map upperPieceId (connections n) = supporting n).
  { rewrite Hs, Hc, map_map. reflexivity. }
  split; [exact Hpar|].
  split; [rewrite <- Hpar; symmetry; apply length_map|].
  intros c Hin. rewrite Hc in Hin. apply in_map_iff in Hin.
  destruct Hin as ([l u] & <- & Hin). apply in_outs in Hin.
  destruct Hin as (Hin & Hid). apply in_edgesOf in Hin.
  destruct Hin as (_ & _ & _ & Hsup). simpl in *.
  pose proof (contact_area l u Hsup) as Ha.
  destruct (suggestConnection_from_four _ u Ha) as (S1 & _ & _ & S4 & S5).
  split; [exact Hid|]. split; [exact Ha|]. split; [exact S1 | split; assumption].
Qed.

(** ** Nodes and keys of the analysed map *)

Lemma keys_set_present {V} (o : JS.obj V) (k : string) (v : V) :
  JS.get o k <> None -> JS.keys (JS.set o k v) = JS.keys o.
Proof.
  induction o as [|[k0 v0] o IH]; simpl; intro H; [congruence|].
  destruct (String.eqb k k0) eqn:E; simpl; [reflexivity|].
  f_equal. apply IH. exact H.
Qed.

Lemma keys_set_absent {V} (o : JS.obj V) (k : string) (v : V) :
  JS.get o k = None -> JS.keys (JS.set o k v) = JS.keys o ++ [k].
Proof.
  induction o as [|[k0 v0] o IH]; simpl; intro H; [reflexivity|].
  destruct (String.eqb k k0) eqn:E; [discriminate|]. simpl.
  f_equal. apply IH. exact H.
Qed.

Lemma initSupportMap_keys (pieces : list Piece) (m0 : SupportMap) :
  NoDup (JS.keys m0 ++ map id pieces) ->
  JS.keys (fold_left (fun m p => JS.set m (id p) (freshNode p)) pieces m0)
  = JS.keys m0 ++ map id pieces.
Proof.
  revert m0. induction pieces as [|p ps IH]; intros m0 Hnd; simpl.
  - rewrite app_nil_r. reflexivity.
  - assert (Habsent : JS.get m0 (id p) = None).
    { destruct (JS.get m0 (id p)) eqn:G; [|reflexivity]. exfalso.
      assert (Hin : In (id p) (JS.keys m0))
        by (apply get_in_keys; congruence).
      apply NoDup_remove_2 in Hnd. apply Hnd.
      apply in_or_app. left. exact Hin. }
    rewrite IH; rewrite (keys_set_absent _ _ _ Habsent).
    + rewrite <- app_assoc. reflexivity.
    + rewrite <- app_assoc. exact Hnd.
Qed.

Lemma visitPair_keys (u l : Piece) (m m' : SupportMap) :
  visitPair u m l = JS.Done m' -> JS.keys m' = JS.keys m.
Proof.
  unfold visitPair.
  destruct (String.eqb (id u) (id l)); [intro H; inversion H; reflexivity|].
  destruct (isSupporting l u); [|intro H; inversion H; reflexivity].
  unfold JS.deref.
  destruct (JS.get m (id l)) as [nl|] eqn:Gl; simpl; [|discriminate].
  match goal with
  | |- context [JS.get ?m1 (id u)] =>
      destruct (JS.get m1 (id u)) as [nu|] eqn:Gu; simpl; [|discriminate]
  end.
  match goal with
  | |- context [JS.get ?m2 (id l)] =>
      destruct (JS.get m2 (id l)) as [nl'|] eqn:Gl'; simpl; [|discriminate]
  end.
  intro H. inversion H; subst m'; clear H.
  rewrite !keys_set_present; congruence.
Qed.

Lemma findSupports_keys (pieces : list Piece) (m m' : SupportMap) :
  findSupports pieces m = JS.Done m' -> JS.keys m' = JS.keys m.
Proof.
  unfold findSupports. intro H.
  apply (forEachM_invariant _ (fun m0 => JS.keys m0 = JS.keys m))
    with (3 := H); [|reflexivity].
  intros s u s' _ Hs Hinner.
  apply (forEachM_invariant _ (fun m0 => JS.keys m0 = JS.keys m))
    with (3 := Hinner); [|exact Hs].
  intros s0 l s0' _ Hs0 Hv. rewrite (visitPair_keys _ _ _ _ Hv). exact Hs0.
Qed.

Lemma processQueue_keys (fuel : nat) (q pr : list string) (m m' : SupportMap) :
  processQueue fuel q pr m = JS.Done m' -> JS.keys m' = JS.keys m.
Proof.
  intro H.
  apply (processQueue_invariant (fun m0 => JS.keys m0 = JS.keys m))
    with (3 := H); [|reflexivity].
  intros m0 k n sw Hk G _ load.
  rewrite keys_set_present; [exact Hk | congruence].
Qed.

Lemma map_inj_on {A B} (f : A -> B) (L xs ys : list A) :
  (forall a b, In a L -> In b L -> f a = f b -> a = b) ->
  incl xs L -> incl ys L -> map f xs = map f ys -> xs = ys.
Proof.
  intro Hinj. revert ys.
  induction xs as [|a xs IH]; intros [|b ys] Hx Hy Hmap; simpl in Hmap;
    try discriminate; [reflexivity|].
  inversion Hmap as [[Hab Hrest]].
  f_equal.
  - apply Hinj; [apply Hx | apply Hy | exact Hab]; left; reflexivity.
  - apply IH; [| | exact Hrest]; intros c Hc; [apply Hx | apply Hy];
      right; exact Hc.
Qed.

(** For a piece list with unique ids, none of them an array index or an
    inherited property name, the analysed map has exactly one node per
    piece, in the order of the list: its keys are the piece ids and the
    nodes hold the pieces themselves, so a lookup by the id of a listed piece
    never comes back empty. *)
Theorem analysis_nodes (pieces : list Piece) :
  NoDup (map id pieces) ->
  (forall p, In p pieces -> JS.plainKey (id p) = true) ->
  exists m : SupportMap,
    analyzeSupportStructure pieces = JS.Done m /\
    JS.keys m = map id pieces /\
    map piece (JS.values m) = pieces /\
    forall p, In p pieces ->
      exists n, JS.get m (id p) = Some n /\ piece n = p.
Proof.
  intros Hnd _.
  destruct (analyze_graph pieces) as (m & Hrun & Hall & Hnodes).
  exists m. split; [exact Hrun|].
  assert (Hkeys : JS.keys m = map id pieces).
  { unfold analyzeSupportStructure in Hrun.
    destruct (findSupports pieces (initSupportMap pieces)) as [m1| |] eqn:Hf;
      simpl in Hrun; try discriminate.
    unfold calculateLoadDistribution in Hrun.
    rewrite (processQueue_keys _ _ _ _ _ Hrun), (findSupports_keys _ _ _ Hf).
    unfold initSupportMap. rewrite initSupportMap_keys; [reflexivity|].
    exact Hnd. }
  assert (Hget : forall k n, In (k, n) m -> JS.get m k = Some n).
  { intros k n Hin. apply in_get; [|exact Hin].
    rewrite Hkeys. exact Hnd. }
  split; [exact Hkeys|]. split.
  - apply (map_inj_on id pieces).
    + intros a b Ha Hb. apply (NoDup_map_inj id pieces a b Hnd Ha Hb).
    + intros p Hp. apply in_map_iff in Hp. destruct Hp as (n & <- & Hn).
      unfold JS.values in Hn. apply in_map_iff in Hn.
      destruct Hn as ([k n'] & Hsnd & Hin). simpl in Hsnd. subst n'.
      apply (Hnodes k n (Hget k n Hin)).
    + apply incl_refl.
    + rewrite <- Hkeys. unfold JS.values, JS.keys. rewrite !map_map.
      apply map_ext_in. intros [k n] Hin. simpl.
      apply (Hnodes k n (Hget k n Hin)).
  - intros p Hp. specialize (Hall p Hp).
    destruct (JS.get m (id p)) as [n|] eqn:G; [|congruence].
    exists n. split; [reflexivity|].
    destruct (Hnodes _ _ G) as (Hid & Hin & _).
    exact (NoDup_map_inj id pieces _ _ Hnd Hin Hp Hid).
Qed.

Lemma analysis_nodes_witness :
  exists m : SupportMap,
    analyzeSupportStructure tower = JS.Done m /\
    JS.keys m = map id tower /\
    map piece (JS.values m) = tower /\
    forall p, In p tower ->
      exists n, JS.get m (id p) = Some n /\ piece n = p.
Proof.
  apply (analysis_nodes tower tower_ids_unique).
  intros p [<- | [<- | [<- | []]]]; reflexivity.
Defined.

(** ** Cycles and pieces the traversal never reaches *)

Lemma rising_acyclic (m : SupportMap) :
  (forall a n b, JS.get m a = Some n -> In b (supporting n) ->
     exists nb, JS.get m b = Some nb /\ y (piece n) < y (piece nb)) ->
  acyclic m.
Proof.
  intros Hrise.
  assert (Hreach : forall a b, reaches m a b ->
            exists na nb, JS.get m a = Some na /\ JS.get m b = Some nb /\
                          y (piece na) < y (piece nb)).
  { intros a b Hr. induction Hr as [a b n G Hin | a b c _ IH1 _ IH2].
    - destruct (Hrise a n b G Hin) as (nb & Gb & Hlt). exists n, nb. auto.
    - destruct IH1 as (na & nb & Ga & Gb & Hab).
      destruct IH2 as (nb' & nc & Gb' & Gc & Hbc).
      rewrite Gb in Gb'. inversion Gb'; subst nb'.
      exists na, nc. split; [exact Ga|]. split; [exact Gc|].
      exact (Qlt_trans _ _ _ Hab Hbc). }
  intros a Hr. destruct (Hreach a a Hr) as (na & nb & Ga & Gb & Hlt).
  rewrite Ga in Gb. inversion Gb; subst nb. exact (Qlt_irrefl _ Hlt).
Qed.

Lemma tall_edges_rise (pieces : list Piece) (m : SupportMap) :
  NoDup (map id pieces) ->
  (forall p, In p pieces -> 1 < height p) ->
  analyzeSupportStructure pieces = JS.Done m ->
  forall a n b, JS.get m a = Some n -> In b (supporting n) ->
    exists nb, JS.get m b = Some nb /\ y (piece n) < y (piece nb).
Proof.
  intros Hnd Htall Hrun0.
  destruct (analyze_graph pieces) as (m' & Hrun & Hall & Hnodes).
  rewrite Hrun0 in Hrun. inversion Hrun; subst m'; clear Hrun.
  intros a n b G Hin.
  destruct (Hnodes a n G) as (Hid & Hpin & Hs & _).
  rewrite Hs in Hin. apply in_map_iff in Hin.
  destruct Hin as ([l u] & Hu & Hin). simpl in Hu. subst b.
  apply in_outs in Hin. destruct Hin as (Hin & Hl). simpl in Hl.
  apply in_edgesOf in Hin. destruct Hin as (Hlin & Huin & _ & Hsup).
  assert (El : piece n = l).
  { apply (NoDup_map_inj id pieces _ _ Hnd Hpin Hlin). congruence. }
  specialize (Hall u Huin).
  destruct (JS.get m (id u)) as [nu|] eqn:Gu; [|congruence].
  destruct (Hnodes _ _ Gu) as (Huid & Hupin & _).
  assert (Eu : piece nu = u)
    by (apply (NoDup_map_inj id pieces _ _ Hnd Hupin Huin Huid)).
  exists nu. split; [reflexivity|]. rewrite El, Eu.
  destruct (support_gap l u Hsup) as (Hlo & _).
  specialize (Htall l Hlin). lra.
Qed.

(** When the ids are unique and every piece lies on the dyadic grid (where
    the binary64 sums of the support test are exact) and is more than 1 inch
    high, every support edge of the analysed map goes to a piece whose
    bottom is strictly higher, and the map has no support cycle. *)
Theorem tall_pieces_acyclic (pieces : list Piece) :
  NoDup (map id pieces) ->
  (forall p, In p pieces -> onGrid p = true) ->
  (forall p, In p pieces -> 1 < height p) ->
  exists m : SupportMap,
    analyzeSupportStructure pieces = JS.Done m /\
    (forall a n b, JS.get m a = Some n -> In b (supporting n) ->
       exists nb, JS.get m b = Some nb /\ y (piece n) < y (piece nb)) /\
    acyclic m.
Proof.
  intros Hnd _ Htall.
  destruct (analyze_graph pieces) as (m & Hrun & _).
  exists m. split; [exact Hrun|].
  pose proof (tall_edges_rise pieces m Hnd Htall Hrun) as Hrise.
  split; [exact Hrise | apply rising_acyclic, Hrise].
Qed.

Lemma tall_pieces_acyclic_witness :
  exists m : SupportMap,
    analyzeSupportStructure [post; crate] = JS.Done m /\
    (forall a n b, JS.get m a = Some n -> In b (supporting n) ->
       exists nb, JS.get m b = Some nb /\ y (piece n) < y (piece nb)) /\
    acyclic m.
Proof.
  apply tall_pieces_acyclic.
  - repeat constructor; simpl; intuition discriminate.
  - intros p [<- | [<- | []]]; reflexivity.
  - intros p [<- | [<- | []]]; reflexivity.
Defined.

Lemma filter_none {A} (f : A -> bool) (xs : list A) :
  (forall a, In a xs -> f a = false) -> filter f xs = [].
Proof.
  induction xs as [|a xs IH]; simpl; intro H; [reflexivity|].
  rewrite (H a (or_introl eq_refl)). apply IH.
  intros b Hb. apply H. right. exact Hb.
Qed.

(** When every piece supports some other piece, no piece is top-level, the
    queue starts empty and the analysis returns every node with totalLoad 0
    and stressLevel 0.  Two overlapping boards half an inch high, one on the
    other, are such a design: each is within 1 inch of the other's bottom. *)
Theorem no_top_level_no_load (pieces : list Piece) :
  (forall p, In p pieces ->
     exists q, In q pieces /\ id q <> id p /\ isSupporting p q = true) ->
  exists m : SupportMap,
    analyzeSupportStructure pieces = JS.Done m /\
    forall k n, JS.get m k = Some n ->
      supporting n <> [] /\ totalLoad n = 0 /\ stressLevel n = 0.
Proof.
  intro Hsup.
  destruct (findSupports_recorded pieces) as (m & Hfind & Hrec).
  exists m.
  assert (Hnodes : forall k n, JS.get m k = Some n ->
            supporting n <> [] /\ totalLoad n = 0 /\ stressLevel n = 0).
  { intros k n G. destruct Hrec as (_ & _ & Hrec).
    destruct (Hrec k n G) as (Hid & Hin & Hs & _ & _ & Hload & Hstress).
    split; [|auto].
    destruct (Hsup _ Hin) as (q & Hq & Hne & Hq').
    assert (He : In (piece n, q) (outs k (edgesOf pieces))).
    { apply in_outs. split; [|exact Hid]. apply in_edgesOf. auto. }
    rewrite Hs. intro Hnil.
    apply (in_map (fun e => id (snd e))) in He. rewrite Hnil in He.
    exact He. }
  split; [|exact Hnodes].
  unfold analyzeSupportStructure. rewrite Hfind. simpl.
  unfold calculateLoadDistribution.
  assert (Htop : topLevel m = []).
  { unfold topLevel.
    assert (Hfilter : filter (fun node => (length (supporting node) =? 0)%nat)
                             (JS.values m) = []).
    { apply filter_none. intros n Hn.
      unfold JS.values in Hn. apply in_map_iff in Hn.
      destruct Hn as ([k n'] & Hsnd & Hin). simpl in Hsnd. subst n'.
      destruct Hrec as (Hnd & _).
      destruct (Hnodes k n (in_get _ _ _ Hnd Hin)) as (Hne & _).
      destruct (supporting n); [congruence | reflexivity]. }
    rewrite Hfilter. reflexivity. }
  rewrite Htop. reflexivity.
Qed.

Lemma no_top_level_no_load_witness :
  exists m : SupportMap,
    analyzeSupportStructure [mat; rug] = JS.Done m /\
    forall k n, JS.get m k = Some n ->
      supporting n <> [] /\ totalLoad n = 0 /\ stressLevel n = 0.
Proof.
  apply no_top_level_no_load.
  intros p [<- | [<- | []]].
  - exists rug. split; [simpl; auto|]. split; [discriminate | reflexivity].
  - exists mat. split; [simpl; auto|]. split; [discriminate | reflexivity].
Defined.

(** ** Stress levels *)

(** With positive footprints and materials that are not inherited property
    names, every node of the analysed map has stressLevel equal to totalLoad
    over capacity (baseCapacity x width x depth) cut off at 1; it is 1
    exactly when the load reaches the capacity. *)
Theorem stress_is_clamped_ratio (pieces : list Piece) :
  (forall p, In p pieces ->
     JS.inherited (material p) = false /\ 0 < width p /\ 0 < depth p) ->
  exists m : SupportMap,
    analyzeSupportStructure pieces = JS.Done m /\
    forall k n, JS.get m k = Some n ->
      stressLevel n == Qmin 1 (totalLoad n / maxCapacity (piece n)) /\
      (stressLevel n == 1 <-> maxCapacity (piece n) <= totalLoad n) /\
      (stressLevel n < 1 <-> totalLoad n < maxCapacity (piece n)).
Proof.
  intro Hpos.
  destruct (analyze_graph pieces) as (m & Hrun & _).
  exists m. split; [exact Hrun|].
  unfold analyzeSupportStructure in Hrun.
  destruct (findSupports_recorded pieces) as (m1 & Hfind & Hrec).
  rewrite Hfind in Hrun. simpl in Hrun.
  assert (Hinv : forall k n, JS.get m k = Some n ->
            In (piece n) pieces /\
            stressLevel n == Qmin 1 (totalLoad n / maxCapacity (piece n))).
  { eapply (processQueue_invariant
              (fun m0 => forall k n, JS.get m0 k = Some n ->
                 In (piece n) pieces /\
                 stressLevel n == Qmin 1 (totalLoad n / maxCapacity (piece n))));
      [ | | exact Hrun].
    - intros m0 k0 n0 sw HP G _ load k n. rewrite get_set.
      destruct (String.eqb k k0); [|apply HP].
      intro H. inversion H; subst n. simpl.
      split; [apply (HP _ _ G) | reflexivity].
    - intros k n G. destruct Hrec as (_ & _ & Hnodes).
      destruct (Hnodes k n G) as (_ & Hin & _ & _ & _ & -> & ->).
      split; [exact Hin|].
      assert (E : 0 / maxCapacity (piece n) == 0)
        by (unfold Qdiv; apply Qmult_0_l).
      rewrite E. symmetry. apply Q.min_r. discriminate. }
  intros k n G. destruct (Hinv k n G) as (Hin & Hs).
  destruct (Hpos _ Hin) as (_ & Hw & Hd).
  assert (Hcap : 0 < maxCapacity (piece n)).
  { unfold maxCapacity. apply Qmult_lt_0_compat; [apply baseCapacity_pos|].
    apply Qmult_lt_0_compat; assumption. }
  set (cap := maxCapacity (piece n)) in *.
  set (r := totalLoad n / cap) in *.
  assert (E : r * cap == totalLoad n).
  { unfold r. field. intro H0. rewrite H0 in Hcap. discriminate. }
  assert (Hr : 1 <= r <-> cap <= totalLoad n).
  { rewrite <- E. rewrite <- (Qmult_le_r 1 r cap Hcap). rewrite Qmult_1_l.
    reflexivity. }
  split; [exact Hs|]. rewrite Hs. split.
  - rewrite <- Hr. split; intro H.
    + destruct (Q.min_spec 1 r) as [[Hlt Em] | [Hle Em]]; rewrite Em in H; lra.
    + apply Q.min_l. exact H.
  - split; intro H.
    + apply Qnot_le_lt. intro Hc. apply Hr in Hc.
      rewrite (Q.min_l 1 r Hc) in H. lra.
    + assert (Hlt : r < 1).
      { apply Qnot_le_lt. intro Hc. apply Hr in Hc. lra. }
      eapply Qle_lt_trans; [apply Q.le_min_r | exact Hlt].
Qed.

Lemma stress_is_clamped_ratio_witness :
  exists m : SupportMap,
    analyzeSupportStructure [pad; block] = JS.Done m /\
    forall k n, JS.get m k = Some n ->
      stressLevel n == Qmin 1 (totalLoad n / maxCapacity (piece n)) /\
      (stressLevel n == 1 <-> maxCapacity (piece n) <= totalLoad n) /\
      (stressLevel n < 1 <-> totalLoad n < maxCapacity (piece n)).
Proof.
  apply stress_is_clamped_ratio.
  intros p [<- | [<- | []]]; repeat split; reflexivity.
Defined.

(** ** Results of the cat weight test *)

Lemma has_true (pr : list string) (k : string) :
  JS.has pr k = true <-> In k pr.
Proof.
  unfold JS.has. rewrite existsb_exists. split.
  - intros (k' & Hin & E). apply String.eqb_eq in E. subst. exact Hin.
  - intro Hin. exists k. split; [exact Hin | apply String.eqb_refl].
Qed.

(** The test over a list of spots, from any intermediate results with
    safety factor 2. *)
Lemma testSpots_run (m : SupportMap) (mc : option Q) (spots : list Piece) :
  (forall s, In s spots -> JS.get m (id s) <> None) ->
  forall r0 : Results, safetyFactor r0 = 2 ->
  exists r,
    forEachM (testSpot m mc) spots r0 = JS.Done r /\
    safetyFactor r = 2 /\
    recommendations r = recommendations r0 /\
    passed r = passed r0 && forallb (fun s => negb (spotFails m mc s)) spots /\
    weakPoints r
      = weakPoints r0 ++ map (weakPointFor m mc) (filter (spotFails m mc) spots) /\
    totalCapacity r
      == totalCapacity r0 + sumQ (map spotCapacity spots) /\
    (forall k, ~ In k (map id spots) ->
       JS.get (catDistribution r) k = JS.get (catDistribution r0) k) /\
    (forall s, In s spots -> exists e s',
       JS.get (catDistribution r) (id s) = Some e /\
       In s' spots /\ id s' = id s /\ e = entryFor m mc s').
Proof.
  induction spots as [|s spots IH]; intros Hall r0 Hsf.
  - exists r0. simpl. rewrite andb_true_r, app_nil_r.
    repeat (split; [solve [auto] |]). split; [ring|].
    split; [auto | intros s []].
  - simpl. unfold testSpot at 1, JS.deref.
    destruct (JS.get m (id s)) as [node|] eqn:G;
      [|exfalso; exact (Hall s (or_introl eq_refl) G)].
    simpl. rewrite Hsf.
    match goal with
    | |- context [forEachM _ spots ?r1] =>
        destruct (IH (fun s0 H0 => Hall s0 (or_intror H0)) r1 eq_refl)
          as (r & Hrun & Hsf' & Hrec & Hpass & Hwp & Hcap & Hout & Hin)
    end.
    exists r. split; [exact Hrun|]. split; [exact Hsf'|].
    split; [exact Hrec|]. simpl in *.
    assert (Eload : loadOf m (id s) = totalLoad node)
      by (unfold loadOf; rewrite G; reflexivity).
    assert (Efail : spotFails m mc s
                    = withCat_gtb (totalLoad node) mc
                        (baseCapacity (materialOf (material s)) *
                         (width s * depth s) / 2)).
    { unfold spotFails, halfCapacity. rewrite Eload. reflexivity. }
    rewrite <- Efail in *.
    split; [|split; [|split; [|split]]].
    + rewrite Hpass. destruct (spotFails m mc s), (passed r0); reflexivity.
    + rewrite Hwp. destruct (spotFails m mc s); simpl; [|reflexivity].
      rewrite <- app_assoc. simpl. unfold weakPointFor, halfCapacity.
      rewrite Eload. reflexivity.
    + rewrite Hcap. unfold spotCapacity. ring.
    + intros k Hk.
      rewrite Hout by (intro Hk'; apply Hk; right; exact Hk').
      rewrite get_set.
      destruct (String.eqb k (id s)) eqn:E; [|reflexivity].
      apply String.eqb_eq in E. exfalso. apply Hk. left. symmetry. exact E.
    + intros s0 [<- | Hs0].
      * destruct (in_dec string_dec (id s) (map id spots)) as [Hdup | Hfresh].
        -- apply in_map_iff in Hdup. destruct Hdup as (s1 & Hid & Hs1).
           destruct (Hin s1 Hs1) as (e & s' & Ge & Hs' & Hid' & He).
           exists e, s'. rewrite <- Hid. split; [exact Ge|].
           split; [right; exact Hs' | split; [congruence | exact He]].
        -- rewrite (Hout _ Hfresh), get_set_same.
           eexists. exists s. split; [reflexivity|].
           split; [left; reflexivity | split; [reflexivity|]].
           unfold entryFor, halfCapacity. rewrite Eload. reflexivity.
      * destruct (Hin s0 Hs0) as (e & s' & Ge & Hs' & Hid' & He).
        exists e, s'. auto.
Qed.


Lemma testCatWeights_run (pieces : list Piece) (catWeights : list Q)
  (m : SupportMap) :
  (forall p, In p pieces -> JS.get m (id p) <> None) ->
  let mc := JS.Math_max_spread catWeights in
  let spots := filter isRestingSpot pieces in
  exists r r1,
    testCatWeights pieces catWeights m = JS.Done r /\
    forEachM (testSpot m mc) spots
      {| passed := true; totalCapacity := 0; weakPoints := [];
         recommendations := []; safetyFactor := 2; catDistribution := [] |}
      = JS.Done r1 /\
    passed r = passed r1 /\ totalCapacity r = totalCapacity r1 /\
    weakPoints r = weakPoints r1 /\ safetyFactor r = safetyFactor r1 /\
    catDistribution r = catDistribution r1 /\
    recommendations r
      = (if passed r1 then []
         else [{| rec_pieceId := None;
                  rec_pieceName := "Overall Design";
                  stress := 100;
                  suggestion := DesignCannotSupport mc |}])
        ++ stressRecommendations m.
Proof.
  intros Hall mc spots.
  destruct (testSpots_run m mc spots) with
    (r0 := {| passed := true; totalCapacity := 0; weakPoints := [];
              recommendations := []; safetyFactor := 2;
              catDistribution := [] |})
    as (r1 & Hrun & _ & Hrec & _); [|reflexivity|].
  { intros s Hs. apply filter_In in Hs. apply Hall, Hs. }
  unfold testCatWeights. fold mc. fold spots. rewrite Hrun. simpl.
  eexists. exists r1. split; [reflexivity|]. split; [reflexivity|].
  simpl. rewrite Hrec. simpl.
  repeat (split; [reflexivity|]).
  destruct (passed r1); reflexivity.
Qed.


(** With an empty list of cat weights the heaviest cat is [-Infinity]: the
    test passes and records no weak point, whatever the loads are. *)
Theorem no_cats_pass (pieces : list Piece) (m : SupportMap) :
  (forall p, In p pieces -> JS.get m (id p) <> None) ->
  exists r : Results,
    testCatWeights pieces [] m = JS.Done r /\
    passed r = true /\ weakPoints r = [] /\
    recommendations r = stressRecommendations m.
Proof.
  intro Hall.
  destruct (testCatWeights_run pieces [] m Hall)
    as (r & r1 & Hr & Hrun & Hp & _ & Hw & _ & _ & Hrec).
  destruct (testSpots_run m None (filter isRestingSpot pieces)) with
    (r0 := {| passed := true; totalCapacity := 0; weakPoints := [];
              recommendations := []; safetyFactor := 2;
              catDistribution := [] |})
    as (r1' & Hrun' & _ & _ & Hpass & Hwp & _); [|reflexivity|].
  { intros s Hin. apply filter_In in Hin. apply Hall, Hin. }
  simpl in Hrun. rewrite Hrun in Hrun'. inversion Hrun'; subst r1'; clear Hrun'.
  simpl in Hpass, Hwp.
  assert (Hp1 : passed r1 = true).
  { rewrite Hpass. apply forallb_forall. intros s _. reflexivity. }
  exists r. split; [exact Hr|]. split; [congruence|]. split.
  - rewrite Hw, Hwp. rewrite (filter_none (spotFails m None)); reflexivity.
  - rewrite Hrec, Hp1. reflexivity.
Qed.


(** ** Connection recommendations *)




Lemma analysis_keys_unique (pieces : list Piece) (m : SupportMap) :
  analyzeSupportStructure pieces = JS.Done m -> NoDup (JS.keys m).
Proof.
  unfold analyzeSupportStructure. intro Hrun.
  destruct (findSupports pieces (initSupportMap pieces)) as [m1| |] eqn:Hf;
    simpl in Hrun; try discriminate.
  unfold calculateLoadDistribution in Hrun.
  rewrite (processQueue_keys _ _ _ _ _ Hrun), (findSupports_keys _ _ _ Hf).
  apply (initSupportMap_recorded pieces).
Qed.



(** ** The stress report *)

Lemma Math_round_int (v : Q) (n : Z) : v == inject_Z n -> JS.Math_round v == v.
Proof.
  intro E. unfold JS.Math_round.
  assert (Hfl : Qfloor (v + 0.5) = Qfloor (inject_Z n + 0.5)).
  { apply Qfloor_comp. rewrite E. reflexivity. }
  rewrite Hfl. apply Qeq_trans with (inject_Z n); [|symmetry; exact E].
  pose proof (Qfloor_le (inject_Z n + 0.5)) as Hle.
  pose proof (Qlt_floor (inject_Z n + 0.5)) as Hlt.
  set (f := Qfloor (inject_Z n + 0.5)) in *.
  assert (Hf : f = n).
  { assert (H1 : (f < n + 1)%Z).
    { rewrite Zlt_Qlt, inject_Z_plus. change (inject_Z 1) with 1. lra. }
    assert (H2 : (n < f + 1)%Z).
    { rewrite Zlt_Qlt. lra. }
    lia. }
  rewrite Hf. reflexivity.
Qed.



Lemma Math_round_between (lo hi : Z) (v : Q) :
  inject_Z lo <= v -> v <= inject_Z hi ->
  inject_Z lo <= JS.Math_round v <= inject_Z hi.
Proof.
  intros Hlo Hhi. split.
  - apply Qle_trans with (JS.Math_round (inject_Z lo)).
    + rewrite (Math_round_int (inject_Z lo) lo) by reflexivity. apply Qle_refl.
    + apply Math_round_mono, Hlo.
  - apply Qle_trans with (JS.Math_round (inject_Z hi)).
    + apply Math_round_mono, Hhi.
    + rewrite (Math_round_int (inject_Z hi) hi) by reflexivity. apply Qle_refl.
Qed.

Lemma stressRecommendations_range (m : SupportMap) :
  (forall n, In n (JS.values m) -> stressLevel n <= 1) ->
  forall r, In r (stressRecommendations m) ->
    rec_pieceId r <> None /\
    ((suggestion r = CriticalAddReinforcement /\ 75 <= stress r <= 100) \/
     (suggestion r = WarningAddBrackets /\ 50 <= stress r <= 75)).
Proof.
  intros Hle r Hr. unfold stressRecommendations in Hr.
  apply in_map_iff in Hr. destruct Hr as (n & <- & Hn).
  apply filter_In in Hn. destruct Hn as (Hn & Hhalf).
  apply gtb_gt in Hhalf. specialize (Hle n Hn). simpl.
  split; [discriminate|].
  destruct (JS.gtb (stressLevel n) 0.75) eqn:E.
  - apply gtb_gt in E. left. split; [reflexivity|].
    apply (Math_round_between 75 100);
      [change (inject_Z 75) with 75 | change (inject_Z 100) with 100]; lra.
  - apply gtb_le in E. right. split; [reflexivity|].
    apply (Math_round_between 50 75);
      [change (inject_Z 50) with 50 | change (inject_Z 75) with 75]; lra.
Qed.

Lemma analysis_values (pieces : list Piece) (m : SupportMap) (n : Node) :
  analyzeSupportStructure pieces = JS.Done m ->
  In n (JS.values m) -> exists k, JS.get m k = Some n.
Proof.
  intros Hrun Hn. unfold JS.values in Hn. apply in_map_iff in Hn.
  destruct Hn as ([k n'] & Hsnd & Hin). simpl in Hsnd. subst n'.
  exists k. apply in_get; [|exact Hin].
  exact (analysis_keys_unique pieces m Hrun).
Qed.


(** Every recommendation of a stress report is of one of three kinds.  The
    "Overall Design" entry is present, and then first, exactly when the
    test failed; it names no piece and has stress 100.  Each other entry
    names a piece and carries a stress percentage of 75 to 100 when it is
    critical and of 50 to 75 when it is a warning. *)
Theorem report_recommendations (pieces : list Piece)
  (catWeights : option (list Q)) :
  exists (rep : Report) (perNode : list Recommendation),
    generateStressReport pieces catWeights = JS.Done rep /\
    rep_recommendations rep
      = (if sum_passed (summary rep) then []
         else [{| rec_pieceId := None;
                  rec_pieceName := "Overall Design";
                  stress := 100;
                  suggestion :=
                    DesignCannotSupport (sum_maxCatWeight (summary rep)) |}])
        ++ perNode /\
    forall r, In r perNode ->
      rec_pieceId r <> None /\
      ((suggestion r = CriticalAddReinforcement /\ 75 <= stress r <= 100) \/
       (suggestion r = WarningAddBrackets /\ 50 <= stress r <= 75)).
Proof.
  set (cats := match catWeights with Some ws => ws | None => [15] end).
  destruct (stress_at_most_one pieces) as (m & Hrun & Hle).
  destruct (analyze_graph pieces) as (m' & Hrun' & Hall & _).
  rewrite Hrun in Hrun'. inversion Hrun'; subst m'; clear Hrun'.
  destruct (testCatWeights_run pieces cats m Hall)
    as (r & r1 & Hr & _ & Hp & _ & _ & _ & _ & Hrec).
  eexists. exists (stressRecommendations m). split.
  { unfold generateStressReport. fold cats. rewrite Hrun. simpl.
    rewrite Hr. simpl. reflexivity. }
  simpl. split; [rewrite Hrec, Hp; reflexivity|].
  apply stressRecommendations_range.
  intros n Hn. destruct (analysis_values pieces m n Hrun Hn) as (k & G).
  exact (Hle k n G).
Qed.

(** The report of an empty design passes with no weight, no capacity, no
    connection, no critical point and no recommendation, for any cat
    weights. *)
Theorem empty_design_report (catWeights : option (list Q)) :
  exists rep : Report,
    generateStressReport [] catWeights = JS.Done rep /\
    sum_passed (summary rep) = true /\
    totalStructureWeight (summary rep) == 0 /\
    supportStructure rep = [] /\
    totalCapacity (testResults rep) = 0 /\
    criticalPoints rep = [] /\
    rep_recommendations rep = [] /\
    count (rep_connections rep) = 0%nat /\
    totalHardwareCost (rep_connections rep) = 0.
Proof.
  eexists. split; [reflexivity|]. simpl.
  repeat split; reflexivity.
Qed.

(** ** Stress colours *)

(** The colour of a stress level tells its bucket: green below 0.3, yellow
    from 0.3, orange from 0.5 and red from 0.75.  Against the
    recommendations of the test: a level that earns a recommendation
    (above 0.5) is orange or red, a critical one (above 0.75) is red, and
    the level 0.75 itself is red although its recommendation is only a
    warning. *)
Theorem stress_colour_buckets (s : Q) :
  (getStressColor s = green <-> s < 0.3) /\
  (getStressColor s = yellow <-> 0.3 <= s /\ s < 0.5) /\
  (getStressColor s = orange <-> 0.5 <= s /\ s < 0.75) /\
  (getStressColor s = red <-> 0.75 <= s) /\
  (JS.gtb s 0.5 = true -> getStressColor s = orange \/ getStressColor s = red) /\
  (JS.gtb s 0.75 = true -> getStressColor s = red) /\
  (getStressColor 0.75 = red /\ JS.gtb 0.75 0.75 = false).
Proof.
  unfold getStressColor.
  destruct (JS.ltb s 0.3) eqn:E1;
    [apply ltb_lt in E1 | apply ltb_ge in E1];
    (destruct (JS.ltb s 0.5) eqn:E2;
       [apply ltb_lt in E2 | apply ltb_ge in E2]);
    (destruct (JS.ltb s 0.75) eqn:E3;
       [apply ltb_lt in E3 | apply ltb_ge in E3]);
    rewrite !gtb_gt;
    repeat split; intros;
    try discriminate; try reflexivity; try lra;
    try (left; reflexivity); try (right; reflexivity);
    try (match goal with H : _ /\ _ |- _ => destruct H end; lra).
Qed.

(** ** The cat list of the stress test panel *)

Lemma catWeightOf_ge_one (parsedInt : option Z) : 1 <= catWeightOf parsedInt.
Proof.
  unfold catWeightOf. destruct parsedInt; [apply Q.le_max_l | apply Qle_refl].
Qed.

Lemma assignAt_some (xs : list Q) (index : nat) (v : Q) (xs' : list Q) :
  assignAt xs index v = Some xs' ->
  xs' <> [] /\ (length xs <= length xs')%nat /\
  (index < length xs -> length xs' = length xs)%nat /\
  forall w, In w xs' -> w = v \/ In w xs.
Proof.
  revert index xs'. induction xs as [|a xs IH]; intros [|i] xs' H; simpl in H.
  - inversion H; subst. simpl. repeat split; auto; try discriminate; try lia.
    intros w [<- | []]. left. reflexivity.
  - discriminate.
  - inversion H; subst. simpl. repeat split; auto; try discriminate.
    intros w [<- | Hw]; auto.
  - destruct (assignAt xs i v) as [ys|] eqn:E; simpl in H; [|discriminate].
    inversion H; subst. destruct (IH i ys E) as (_ & Hlen & Hsame & Hin).
    simpl. repeat split; try discriminate; try lia.
    intros w [<- | Hw]; [right; left; reflexivity|].
    destruct (Hin w Hw); auto.
Qed.

Lemma filterIndex_sub (keep : nat -> bool) (i : nat) (xs : list Q) :
  forall w, In w (filterIndex keep i xs) -> In w xs.
Proof.
  revert i. induction xs as [|a xs IH]; intros i w H; simpl in *; [exact H|].
  destruct (keep i); [destruct H as [<- | H]|]; eauto.
Qed.

Lemma filterIndex_all (keep : nat -> bool) (i : nat) (xs : list Q) :
  (forall j, (i <= j)%nat -> keep j = true) -> filterIndex keep i xs = xs.
Proof.
  revert i. induction xs as [|a xs IH]; intros i H; simpl; [reflexivity|].
  rewrite (H i (Nat.le_refl i)). f_equal. apply IH.
  intros j Hj. apply H. lia.
Qed.

Lemma removeIndex_length (index i : nat) (xs : list Q) :
  (i <= index)%nat ->
  length (filterIndex (fun j => negb (j =? index)%nat) i xs)
  = (if (index <? i + length xs)%nat then length xs - 1 else length xs)%nat.
Proof.
  revert i. induction xs as [|a xs IH]; intros i Hi.
  - simpl. destruct (index <? i + 0)%nat; reflexivity.
  - cbn [filterIndex]. destruct (i =? index)%nat eqn:E.
    + apply Nat.eqb_eq in E. subst i. cbn [negb].
      rewrite filterIndex_all.
      * assert (Hlt : (index <? index + length (a :: xs))%nat = true)
          by (apply Nat.ltb_lt; simpl; lia).
        rewrite Hlt. simpl. lia.
      * intros j Hj. apply negb_true_iff, Nat.eqb_neq. lia.
    + apply Nat.eqb_neq in E. cbn [negb length]. rewrite IH by lia.
      replace (i + S (length xs))%nat with (S i + length xs)%nat by lia.
      destruct (index <? S i + length xs)%nat eqn:E'; [|reflexivity].
      apply Nat.ltb_lt in E'. lia.
Qed.

Lemma max_spread_some (xs : list Q) :
  xs <> [] -> (forall w, In w xs -> 1 <= w) ->
  exists c, JS.Math_max_spread xs = Some c /\ 1 <= c /\
            forall w, In w xs -> w <= c.
Proof.
  induction xs as [|a xs IH]; intros Hne Hall; [congruence|].
  simpl. destruct xs as [|b xs].
  - simpl. exists a. split; [reflexivity|]. split; [apply Hall; left; reflexivity|].
    intros w [<- | []]. apply Qle_refl.
  - destruct IH as (c & Hc & Hone & Hmax); [discriminate | |].
    { intros w Hw. apply Hall. right. exact Hw. }
    rewrite Hc. exists (Qmax a c). split; [reflexivity|]. split.
    + eapply Qle_trans; [exact Hone | apply Q.le_max_r].
    + intros w [<- | Hw]; [apply Q.le_max_l|].
      eapply Qle_trans; [apply Hmax, Hw | apply Q.le_max_r].
Qed.

Lemma applyEdit_keeps (ws : list Q) (e : catEdit) (ws' : list Q) :
  ws <> [] -> (forall w, In w ws -> 1 <= w) ->
  applyEdit ws e = Some ws' ->
  ws' <> [] /\ forall w, In w ws' -> 1 <= w.
Proof.
  intros Hne Hall. destruct e as [index parsedInt | | index]; simpl.
  - unfold handleWeightChange. intro H.
    destruct (assignAt_some _ _ _ _ H) as (Hne' & _ & _ & Hin).
    split; [exact Hne'|]. intros w Hw.
    destruct (Hin w Hw) as [-> | Hw']; [apply catWeightOf_ge_one | auto].
  - intro H. inversion H; subst. unfold handleAddCat. split.
    + destruct ws; discriminate.
    + intros w Hw. apply in_app_or in Hw.
      destruct Hw as [Hw | [<- | []]]; [auto | discriminate].
  - intro H. inversion H; subst. unfold handleRemoveCat.
    destruct (1 <? length ws)%nat eqn:E; [|auto].
    apply Nat.ltb_lt in E. split.
    + intro Hnil. apply (f_equal (@length Q)) in Hnil.
      rewrite removeIndex_length in Hnil by lia. simpl in Hnil.
      destruct (index <? length ws)%nat; simpl in Hnil; lia.
    + intros w Hw. apply Hall. eapply filterIndex_sub. exact Hw.
Qed.

(** Starting from a list of cat weights that is not empty and has no weight
    under 1 lb, any sequence of weight changes, added cats and removed cats
    leaves a list that is not empty and has no weight under 1 lb: the last
    cat cannot be removed and a typed weight is raised to 1.  So the
    heaviest cat the report is run with is a number, at least 1. *)
Theorem cat_list_edits (ws : list Q) (edits : list catEdit) (ws' : list Q) :
  ws <> [] -> (forall w, In w ws -> 1 <= w) ->
  applyEdits ws edits = Some ws' ->
  ws' <> [] /\ (forall w, In w ws' -> 1 <= w) /\
  exists c, JS.Math_max_spread ws' = Some c /\ 1 <= c /\
            forall w, In w ws' -> w <= c.
Proof.
  revert ws. induction edits as [|e edits IH]; intros ws Hne Hall H; simpl in H.
  - inversion H; subst. split; [exact Hne|]. split; [exact Hall|].
    apply max_spread_some; assumption.
  - destruct (applyEdit ws e) as [ws1|] eqn:E; [|discriminate].
    destruct (applyEdit_keeps ws e ws1 Hne Hall E) as (Hne1 & Hall1).
    exact (IH ws1 Hne1 Hall1 H).
Qed.

Lemma cat_list_edits_witness :
  [12; 1] <> [] /\ (forall w, In w [12; 1] -> 1 <= w) /\
  exists c, JS.Math_max_spread [12; 1] = Some c /\ 1 <= c /\
            forall w, In w [12; 1] -> w <= c.
Proof.
  apply (cat_list_edits [15]
           [AddCat; WeightChange 0 (Some 12%Z); RemoveCat 1;
            RemoveCat 0; AddCat; WeightChange 1 (Some (-3)%Z)]).
  - discriminate.
  - intros w [<- | []]. discriminate.
  - reflexivity.
Defined.

(** Removing a cat shortens the list by one when there are at least two
    cats and the index is inside the list, and changes nothing otherwise;
    adding a cat appends the default 15 lb; changing a weight inside the
    list keeps its length. *)
Theorem cat_list_lengths (ws : list Q) (index : nat) (parsedInt : option Z) :
  length (handleRemoveCat ws index)
    = (if (1 <? length ws)%nat && (index <? length ws)%nat
       then length ws - 1 else length ws)%nat /\
  (length ws <= 1 -> handleRemoveCat ws index = ws)%nat /\
  handleAddCat ws = ws ++ [15] /\
  (index < length ws ->
   exists ws', handleWeightChange ws index parsedInt = Some ws' /\
               length ws' = length ws /\
               nth_error ws' index = Some (catWeightOf parsedInt))%nat.
Proof.
  split; [|split; [|split]].
  - unfold handleRemoveCat. destruct (1 <? length ws)%nat; [|reflexivity].
    rewrite removeIndex_length by lia. reflexivity.
  - intro H. unfold handleRemoveCat.
    destruct (1 <? length ws)%nat eqn:E; [|reflexivity].
    apply Nat.ltb_lt in E. lia.
  - reflexivity.
  - unfold handleWeightChange. generalize (catWeightOf parsedInt) as v.
    revert index. induction ws as [|a ws IH]; intros [|i] v Hi; simpl in *;
      try lia.
    + eexists. split; [reflexivity|]. split; reflexivity.
    + destruct (IH i v) as (ws' & E & Hlen & Hnth); [lia|].
      rewrite E. simpl. exists (a :: ws'). split; [reflexivity|].
      simpl. split; [congruence | exact Hnth].
Qed.

Lemma cat_list_lengths_witness :
  exists ws', handleWeightChange [15; 9] 1 (Some 0%Z) = Some ws' /\
              length ws' = length [15; 9] /\
              nth_error ws' 1 = Some (catWeightOf (Some 0%Z)).
Proof.
  destruct (cat_list_lengths [15; 9] 1 (Some 0%Z)) as (_ & _ & _ & H).
  apply H. simpl. lia.
Defined.

(** ** Which nodes the traversal finalises *)

Lemma has_false (pr : list string) (k : string) :
  JS.has pr k = false <-> ~ In k pr.
Proof.
  rewrite <- has_true. destruct (JS.has pr k); split; congruence.
Qed.

(** The loop finalises a set of ids that contains the queue and is closed
    under [supportedBy]; a node is written once, when its id is first taken
    from the queue, and keeps the property [Fin] it gets then. *)
Lemma processQueue_trace (Inv : SupportMap -> Prop) (Fin : Node -> Prop) :
  (forall m k n sw,
     Inv m -> JS.get m k = Some n ->
     supportedWeight m (supporting n) = JS.Done sw ->
     let load := calculatePieceWeight (piece n) + sw in
     let n' := set_load n load (Qmin 1 (load / maxCapacity (piece n))) in
     Inv (JS.set m k n') /\ Fin n') ->
  forall fuel q pr m m',
    Inv m -> processQueue fuel q pr m = JS.Done m' ->
    exists final : list string,
      incl pr final /\ incl q final /\
      (forall k, In k pr -> JS.get m' k = JS.get m k) /\
      (forall k, In k final -> ~ In k pr ->
         exists n', JS.get m' k = Some n' /\ Fin n' /\
                    incl (supportedBy n') final).
Proof.
  intros Hstep fuel.
  induction fuel as [|fuel IH]; intros q pr m m' HI Hrun;
    destruct q as [|k rest]; simpl in Hrun; try discriminate.
  - inversion Hrun; subst m'. exists pr.
    split; [apply incl_refl|]. split; [intros k []|].
    split; [reflexivity | intros k H1 H2; contradiction].
  - inversion Hrun; subst m'. exists pr.
    split; [apply incl_refl|]. split; [intros k []|].
    split; [reflexivity | intros k H1 H2; contradiction].
  - destruct (JS.has pr k) eqn:Hhas.
    + destruct (IH rest pr m m' HI Hrun) as (final & Hpr & Hq & Hsame & Hfin).
      exists final. split; [exact Hpr|]. split; [|auto].
      intros k0 [<- | Hk0]; [apply Hpr, has_true, Hhas | apply Hq, Hk0].
    + unfold JS.deref in Hrun.
      destruct (JS.get m k) as [n|] eqn:G; simpl in Hrun; [|discriminate].
      destruct (supportedWeight m (supporting n)) as [sw| |] eqn:Hsw;
        simpl in Hrun; try discriminate.
      destruct (Hstep m k n sw HI G Hsw) as (HI1 & HFin).
      destruct (IH _ _ _ _ HI1 Hrun) as (final & Hpr & Hq & Hsame & Hfin).
      apply has_false in Hhas.
      exists final. split; [intros k0 Hk0; apply Hpr; right; exact Hk0|].
      split.
      { intros k0 [<- | Hk0]; [apply Hpr; left; reflexivity|].
        apply Hq, in_or_app. left. exact Hk0. }
      split.
      { intros k0 Hk0. rewrite (Hsame k0 (or_intror Hk0)).
        apply get_set_other. intros ->. contradiction. }
      intros k0 Hk0 Hnot.
      destruct (string_dec k0 k) as [-> | Hne].
      * rewrite (Hsame k (or_introl eq_refl)), get_set_same.
        eexists. split; [reflexivity|]. split; [exact HFin|].
        simpl. intros s Hs.
        destruct (JS.has (k :: pr) s) eqn:Hs'.
        -- apply Hpr, has_true, Hs'.
        -- apply Hq, in_or_app. right. apply filter_In.
           split; [exact Hs|].
           change (negb (JS.has (k :: pr) s) = true).
           rewrite Hs'. reflexivity.
      * apply Hfin; [exact Hk0|]. intros [-> | H]; [congruence | contradiction].
Qed.

(** A piece with nothing resting on it is a seed of the queue: it ends with
    totalLoad equal to its own weight, whatever the rest of the design. *)
Theorem top_pieces_bear_own_weight (pieces : list Piece) :
  exists m : SupportMap,
    analyzeSupportStructure pieces = JS.Done m /\
    forall k n, JS.get m k = Some n -> supporting n = [] ->
      totalLoad n == calculatePieceWeight (piece n).
Proof.
  destruct (analyze_graph pieces) as (m & Hrun & _ & _).
  exists m. split; [exact Hrun|].
  unfold analyzeSupportStructure in Hrun.
  destruct (findSupports_recorded pieces) as (m1 & Hfind & Hrec).
  rewrite Hfind in Hrun. simpl in Hrun. unfold calculateLoadDistribution in Hrun.
  destruct (processQueue_trace (fun _ => True)
              (fun n => supporting n = [] ->
                        totalLoad n == calculatePieceWeight (piece n)))
    with (fuel := queueBudget m1) (q := topLevel m1) (pr := @nil string)
         (m := m1) (m' := m)
    as (final & _ & Hq & _ & Hfin); [| exact I | exact Hrun |].
  { intros m0 k n sw _ G Hsw load n'. split; [exact I|].
    simpl. intro Hnil. rewrite Hnil in Hsw. inversion Hsw; subst sw.
    unfold load. ring. }
  intros k n G Hnil.
  assert (Hpres : graphPreserved m1 m).
  { destruct (processQueue_done (queueBudget m1) (topLevel m1) [] m1)
      as (m2 & Hrun2 & Hp).
    - exact (recorded_closed _ _ Hrec).
    - exact (recorded_topLevel _ _ _ Hrec).
    - unfold queueBudget. lia.
    - rewrite Hrun in Hrun2. inversion Hrun2; subst m2. exact Hp. }
  specialize (Hpres k). rewrite G in Hpres.
  destruct (JS.get m1 k) as [n1|] eqn:G1; [|contradiction].
  destruct Hpres as (Hp & Hs & _).
  assert (Hseed : In k (topLevel m1)).
  { unfold topLevel. apply in_map_iff. exists n1. split.
    - destruct Hrec as (_ & _ & Hnodes). apply (Hnodes k n1 G1).
    - apply filter_In. split.
      + unfold JS.values. apply in_map_iff. exists (k, n1).
        split; [reflexivity | apply get_in, G1].
      + rewrite <- Hs, Hnil. reflexivity. }
  destruct (Hfin k (Hq k Hseed)) as (n' & G' & HF & _); [intros []|].
  rewrite G in G'. inversion G'; subst n'. exact (HF Hnil).
Qed.

Lemma analysis_symmetric (pieces : list Piece) (m : SupportMap) :
  analyzeSupportStructure pieces = JS.Done m ->
  forall a na b, JS.get m a = Some na -> In b (supporting na) ->
    exists nb, JS.get m b = Some nb /\ In a (supportedBy nb).
Proof.
  intro Hrun0.
  destruct (analyze_graph pieces) as (m' & Hrun & Hall & Hnodes).
  rewrite Hrun0 in Hrun. inversion Hrun; subst m'; clear Hrun.
  intros a na b G Hin.
  destruct (Hnodes a na G) as (_ & _ & Hs & _).
  rewrite Hs in Hin. apply in_map_iff in Hin.
  destruct Hin as ([l u] & Hu & Hin). simpl in Hu. subst b.
  apply in_outs in Hin. destruct Hin as (Hin & Hl). simpl in Hl.
  assert (Huin : In u pieces) by (apply in_edgesOf in Hin; tauto).
  specialize (Hall u Huin).
  destruct (JS.get m (id u)) as [nu|] eqn:Gu; [|congruence].
  exists nu. split; [reflexivity|].
  destruct (Hnodes _ _ Gu) as (_ & _ & _ & Hb & _).
  rewrite Hb. apply in_map_iff. exists (l, u). split; [exact Hl|].
  apply in_ins. auto.
Qed.

Lemma filter_length_lt {A} (f g : A -> bool) (xs : list A) :
  (forall a, In a xs -> f a = true -> g a = true) ->
  (exists a, In a xs /\ g a = true /\ f a = false) ->
  (length (filter f xs) < length (filter g xs))%nat.
Proof.
  induction xs as [|a xs IH]; intros Hsub (b & Hb & Hg & Hf); [contradiction|].
  assert (Hle : (length (filter f xs) <= length (filter g xs))%nat).
  { clear IH Hb. assert (Hsub' : forall c, In c xs -> f c = true -> g c = true)
      by (intros c Hc; apply Hsub; right; exact Hc).
    clear Hsub. induction xs as [|c xs IHx]; simpl; [lia|].
    assert (IH' := IHx (fun c0 H0 => Hsub' c0 (or_intror H0))).
    destruct (f c) eqn:Ef.
    - rewrite (Hsub' c (or_introl eq_refl) Ef). simpl. lia.
    - destruct (g c); simpl; lia. }
  simpl. destruct Hb as [<- | Hb].
  - rewrite Hg, Hf. simpl. lia.
  - assert (IH' : (length (filter f xs) < length (filter g xs))%nat).
    { apply IH; [intros c Hc; apply Hsub; right; exact Hc|].
      exists b. auto. }
    destruct (f a) eqn:Ef.
    + rewrite (Hsub a (or_introl eq_refl) Ef). simpl. lia.
    + destruct (g a); simpl; lia.
Qed.

(** For a design with unique ids (none an array index or an inherited
    property name) whose pieces lie on the dyadic grid, where the binary64
    sums of the support test are exact, have materials that are not
    inherited property names, are more than 1 inch high and, when hollow, at
    least 1 inch wide and deep: the traversal reaches every node, and each
    ends with a totalLoad of at least its own weight. *)
Theorem every_node_bears_own_weight (pieces : list Piece) :
  NoDup (map id pieces) ->
  (forall p, In p pieces ->
     JS.plainKey (id p) = true /\ onGrid p = true /\
     JS.inherited (material p) = false) ->
  (forall p, In p pieces ->
     0 < width p /\ 1 < height p /\ 0 < depth p /\
     (hollow p = true -> 1 <= width p /\ 1 <= depth p)) ->
  exists m : SupportMap,
    analyzeSupportStructure pieces = JS.Done m /\
    forall k n, JS.get m k = Some n ->
      0 <= calculatePieceWeight (piece n) /\
      calculatePieceWeight (piece n) <= totalLoad n.
Proof.
  intros Hnd _ Hdims.
  assert (Hvol : forall p, In p pieces -> 0 <= pieceVolume p).
  { intros p Hp. destruct (Hdims p Hp) as (Hw & Hh & Hd & Hhol).
    apply volume_nonneg; try lra. intro E. destruct (Hhol E). repeat split; lra. }
  assert (Htall : forall p, In p pieces -> 1 < height p)
    by (intros p Hp; apply (Hdims p Hp)).
  destruct (analyze_graph pieces) as (m & Hrun & _ & Hnodes).
  exists m. split; [exact Hrun|].
  pose proof (tall_edges_rise pieces m Hnd Htall Hrun) as Hrise.
  pose proof (analysis_symmetric pieces m Hrun) as Hsym.
  pose proof Hrun as Hrun0.
  unfold analyzeSupportStructure in Hrun.
  destruct (findSupports_recorded pieces) as (m1 & Hfind & Hrec).
  rewrite Hfind in Hrun. simpl in Hrun. unfold calculateLoadDistribution in Hrun.
  destruct (processQueue_trace
              (fun m0 => forall k n, JS.get m0 k = Some n ->
                           In (piece n) pieces /\ 0 <= totalLoad n)
              (fun n => calculatePieceWeight (piece n) <= totalLoad n))
    with (fuel := queueBudget m1) (q := topLevel m1) (pr := @nil string)
         (m := m1) (m' := m)
    as (final & _ & Hq & _ & Hfin); [| | exact Hrun |].
  { intros m0 k n sw HI G Hsw load n'.
    assert (Hsw0 : 0 <= sw).
    { apply (supportedWeight_nonneg m0 (supporting n) sw); [|exact Hsw].
      intros k' n0 G0. apply (HI _ _ G0). }
    destruct (HI _ _ G) as (Hin & _).
    pose proof (weight_nonneg _ (Hvol _ Hin)) as Hw0.
    split.
    - intros k0 n0. rewrite get_set.
      destruct (String.eqb k0 k); [|apply HI].
      intro H. inversion H; subst n0. simpl. split; [exact Hin|].
      unfold load. lra.
    - simpl. unfold load. lra. }
  { intros k n G. destruct Hrec as (_ & _ & Hrec).
    destruct (Hrec k n G) as (_ & Hin & _ & _ & _ & -> & _).
    split; [exact Hin | apply Qle_refl]. }
  assert (Hpres : graphPreserved m1 m).
  { destruct (processQueue_done (queueBudget m1) (topLevel m1) [] m1)
      as (m2 & Hrun2 & Hp).
    - exact (recorded_closed _ _ Hrec).
    - exact (recorded_topLevel _ _ _ Hrec).
    - unfold queueBudget. lia.
    - rewrite Hrun in Hrun2. inversion Hrun2; subst m2. exact Hp. }
  assert (Hseed : forall k n, JS.get m k = Some n -> supporting n = [] ->
                              In k (topLevel m1)).
  { intros k n G Hnil. specialize (Hpres k). rewrite G in Hpres.
    destruct (JS.get m1 k) as [n1|] eqn:G1; [|contradiction].
    destruct Hpres as (_ & Hs & _).
    unfold topLevel. apply in_map_iff. exists n1. split.
    - destruct Hrec as (_ & _ & Hrec). apply (Hrec k n1 G1).
    - apply filter_In. split.
      + unfold JS.values. apply in_map_iff. exists (k, n1).
        split; [reflexivity | apply get_in, G1].
      + rewrite <- Hs, Hnil. reflexivity. }
  set (above := fun t : Q =>
         length (filter (fun n' => JS.ltb t (y (piece n'))) (JS.values m))).
  assert (Hall : forall N k n, JS.get m k = Some n ->
            (above (y (piece n)) < N)%nat -> In k final).
  { induction N as [|N IH]; intros k n G Hlt; [lia|].
    destruct (supporting n) as [|b bs] eqn:Es.
    - apply Hq. exact (Hseed k n G Es).
    - destruct (Hrise k n b G) as (nb & Gb & Hy); [rewrite Es; left; reflexivity|].
      assert (Hb : In b final).
      { apply (IH b nb Gb).
        assert ((above (y (piece nb)) < above (y (piece n)))%nat); [|lia].
        apply filter_length_lt.
        - intros x _ Hx. apply ltb_lt in Hx. apply ltb_lt. lra.
        - exists nb. split.
          + unfold JS.values. apply in_map_iff. exists (b, nb).
            split; [reflexivity | apply get_in, Gb].
          + split; [apply ltb_lt, Hy | apply ltb_ge, Qle_refl]. }
      destruct (Hfin b Hb) as (nb' & Gb' & _ & Hclosed); [intros []|].
      rewrite Gb in Gb'. inversion Gb'; subst nb'.
      apply Hclosed.
      destruct (Hsym k n b G) as (nb2 & Gb2 & Hin2);
        [rewrite Es; left; reflexivity|].
      rewrite Gb in Gb2. inversion Gb2; subst nb2. exact Hin2. }
  intros k n G.
  destruct (Hnodes k n G) as (_ & Hin & _).
  split; [apply weight_nonneg, Hvol, Hin|].
  destruct (Hfin k (Hall _ k n G (Nat.lt_succ_diag_r _))) as (n' & G' & HF & _);
    [intros []|].
  rewrite G in G'. inversion G'; subst n'. exact HF.
Qed.

Lemma every_node_bears_own_weight_witness :
  exists m : SupportMap,
    analyzeSupportStructure [post; crate] = JS.Done m /\
    forall k n, JS.get m k = Some n ->
      0 <= calculatePieceWeight (piece n) /\
      calculatePieceWeight (piece n) <= totalLoad n.
Proof.
  apply every_node_bears_own_weight.
  - repeat constructor; simpl; intuition discriminate.
  - intros p [<- | [<- | []]]; repeat split; reflexivity.
  - intros p [<- | [<- | []]]; repeat split; try reflexivity; discriminate.
Defined.

(** ** Load conservation on levelled designs *)




Section Levelled.

Variable m0 : SupportMap.
Variable lev : string -> nat.

Hypothesis closed0 : closed m0.
Hypothesis up_down :
  forall a na b, JS.get m0 a = Some na -> In b (supporting na) ->
    exists nb, JS.get m0 b = Some nb /\ In a (supportedBy nb).
Hypothesis down_up :
  forall b nb a, JS.get m0 b = Some nb -> In a (supportedBy nb) ->
    exists na, JS.get m0 a = Some na /\ In b (supporting na).
Hypothesis lev_step :
  forall k n c, JS.get m0 k = Some n -> In c (supporting n) ->
    lev k = S (lev c).
Hypothesis lev_top :
  forall k n, JS.get m0 k = Some n -> supporting n = [] -> lev k = 0%nat.







End Levelled.



(** ** The cat test on a sample design *)

Lemma padMap_nodes :
  forall p, In p [pad; block] -> JS.get (analysed [pad; block]) (id p) <> None.
Proof.
  intros p [<- | [<- | []]]; vm_compute; discriminate.
Qed.


Lemma no_cats_pass_witness :
  exists r : Results,
    testCatWeights [pad; block] [] (analysed [pad; block]) = JS.Done r /\
    passed r = true /\ weakPoints r = [] /\
    recommendations r = stressRecommendations (analysed [pad; block]).
Proof.
  exact (no_cats_pass [pad; block] (analysed [pad; block]) padMap_nodes).
Defined.


(** ** Connection strength and failed lookups *)

(** For a given overlap area, a heavier upper piece never gets a weaker or
    cheaper connection.  The same does not hold along the area: for an
    upper piece of 12.5 lb the suggestion at area 10 (light brackets,
    strength 75) is weaker than the one at area 20 (glue and screws,
    strength 100). *)
Theorem suggestion_grows_with_weight (a : Q) (u1 u2 : Piece) :
  (calculatePieceWeight u1 <= calculatePieceWeight u2 ->
   strength (connectionTypes (suggestConnection a u1))
     <= strength (connectionTypes (suggestConnection a u2)) /\
   cost (connectionTypes (suggestConnection a u1))
     <= cost (connectionTypes (suggestConnection a u2))) /\
  (calculatePieceWeight u1 == 12.5 ->
   strength (connectionTypes (suggestConnection 10 u1))
     < strength (connectionTypes (suggestConnection 20 u1))).
Proof.
  split.
  - intro Hle. unfold suggestConnection.
    destruct (JS.ltb a 4); [|destruct (JS.ltb a 16)];
      match goal with
      | |- context [JS.gtb (calculatePieceWeight u1) ?t] =>
          destruct (JS.gtb (calculatePieceWeight u1) t) eqn:E1;
          destruct (JS.gtb (calculatePieceWeight u2) t) eqn:E2
      end;
      try (split; discriminate);
      apply gtb_gt in E1; apply gtb_le in E2; lra.
  - intro Hw. unfold suggestConnection.
    assert (H15 : JS.gtb (calculatePieceWeight u1) 15 = false)
      by (apply gtb_le; rewrite Hw; discriminate).
    assert (H10 : JS.gtb (calculatePieceWeight u1) 10 = true)
      by (apply gtb_gt; rewrite Hw; reflexivity).
    simpl. rewrite H15, H10. reflexivity.
Qed.

Lemma suggestion_grows_with_weight_witness :
  (strength (connectionTypes (suggestConnection 3 light))
     <= strength (connectionTypes (suggestConnection 3 heavy)) /\
   cost (connectionTypes (suggestConnection 3 light))
     <= cost (connectionTypes (suggestConnection 3 heavy))) /\
  strength (connectionTypes (suggestConnection 10 bench))
    < strength (connectionTypes (suggestConnection 20 bench)).
Proof.
  split.
  - apply (proj1 (suggestion_grows_with_weight 3 light heavy)).
    vm_compute. discriminate.
  - apply (proj2 (suggestion_grows_with_weight 3 bench bench)).
    vm_compute. reflexivity.
Defined.

Lemma testSpots_throw (m : SupportMap) (mc : option Q) (spots : list Piece) :
  (exists s, In s spots /\ JS.get m (id s) = None) ->
  forall r0, forEachM (testSpot m mc) spots r0 = JS.Throws.
Proof.
  induction spots as [|s spots IH]; intros (s0 & Hin & Hnone) r0;
    [contradiction|].
  simpl. unfold testSpot at 1, JS.deref.
  destruct (JS.get m (id s)) as [node|] eqn:G; simpl; [|reflexivity].
  apply IH. destruct Hin as [<- | Hin]; [congruence|]. exists s0. auto.
Qed.

(** When the id of no resting spot is an inherited property name,
    [testCatWeights] throws exactly when some resting spot has no node in
    the map it is given, and returns results otherwise; pieces that are not
    resting spots are never looked up. *)
Theorem testCatWeights_lookup (pieces : list Piece) (catWeights : list Q)
  (m : SupportMap) :
  (forall s, In s pieces -> isRestingSpot s = true ->
             JS.inherited (id s) = false) ->
  (testCatWeights pieces catWeights m = JS.Throws <->
   exists s, In s pieces /\ isRestingSpot s = true /\ JS.get m (id s) = None) /\
  ((forall s, In s pieces -> isRestingSpot s = true ->
              JS.get m (id s) <> None) ->
   exists r, testCatWeights pieces catWeights m = JS.Done r).
Proof.
  intros _.
  assert (Hdone : (forall s, In s pieces -> isRestingSpot s = true ->
                             JS.get m (id s) <> None) ->
                  exists r, testCatWeights pieces catWeights m = JS.Done r).
  { intro Hall.
    destruct (testSpots_run m (JS.Math_max_spread catWeights)
                (filter isRestingSpot pieces)) with
      (r0 := {| passed := true; totalCapacity := 0; weakPoints := [];
                recommendations := []; safetyFactor := 2;
                catDistribution := [] |})
      as (r1 & Hrun & _); [|reflexivity|].
    { intros s Hs. apply filter_In in Hs. apply Hall; tauto. }
    unfold testCatWeights. rewrite Hrun. simpl. eexists. reflexivity. }
  split; [|exact Hdone]. split.
  - intro Hthrow.
    destruct (existsb (fun s => match JS.get m (id s) with
                                | None => true | Some _ => false end)
                      (filter isRestingSpot pieces)) eqn:E.
    + apply existsb_exists in E. destruct E as (s & Hs & Hn).
      apply filter_In in Hs. exists s.
      destruct (JS.get m (id s)); [discriminate | tauto].
    + exfalso. destruct Hdone as (r & Hr); [|congruence].
      intros s Hs Hrest Hnone.
      assert (Hex : existsb (fun s => match JS.get m (id s) with
                                      | None => true | Some _ => false end)
                            (filter isRestingSpot pieces) = true).
      { apply existsb_exists. exists s. split; [apply filter_In; auto|].
        rewrite Hnone. reflexivity. }
      congruence.
  - intros (s & Hs & Hrest & Hnone). unfold testCatWeights.
    rewrite testSpots_throw; [reflexivity|].
    exists s. split; [apply filter_In; auto | exact Hnone].
Qed.

Lemma testCatWeights_lookup_witness :
  exists r, testCatWeights [pad; block] [15] (analysed [pad]) = JS.Done r.
Proof.
  apply (proj2 (testCatWeights_lookup [pad; block] [15] (analysed [pad])
                 ltac:(intros s [<- | [<- | []]] _; reflexivity))).
  intros s [<- | [<- | []]] Hrest; [vm_compute | ]; discriminate.
Defined.
